(** * Power_Int and Asin symbolic operators of the ACADO Toolkit

    A shallow embedding of [src/src/symbolic_operator/powerint.cpp] and
    [src/src/symbolic_operator/asin.cpp]:
    - the numeric part of [Power_Int] (its growable [argument_result] /
      [dargument_result] buffers, [evaluate], the numeric [AD_*] sweeps);
    - the classification queries ([getMonotonicity], [getCurvature]) with the
      floating-point parity test written out over a round-to-nearest model;
    - the symbolic part on expression trees ([substitute], [isDependingOn],
      [isOneOrZero], [differentiate], [print]);
    - [initDerivative] over a heap of shared operator nodes. *)

From Stdlib Require Import ZArith QArith Qround Qabs Lqa String.
From stdpp Require Import base list gmap strings pretty.

Local Open Scope Z_scope.

(** ** Enumerations of [acado/utils/acado_types.hpp] used by the operators *)

Inductive returnValue := SUCCESSFUL_RETURN | RET_NAN.

Inductive BooleanType := BT_FALSE | BT_TRUE.

Inductive NeutralElement := NE_ZERO | NE_ONE | NE_NEITHER_ONE_NOR_ZERO.

Inductive VariableType :=
| VT_DIFFERENTIAL_STATE | VT_ALGEBRAIC_STATE | VT_CONTROL
| VT_INTEGER_CONTROL | VT_PARAMETER | VT_INTEGER_PARAMETER
| VT_DISTURBANCE | VT_TIME | VT_INTERMEDIATE_STATE.

Inductive MonotonicityType :=
| MT_CONSTANT | MT_NONDECREASING | MT_NONINCREASING | MT_NONMONOTONIC | MT_UNKNOWN.

Inductive CurvatureType :=
| CT_UNKNOWN | CT_CONSTANT | CT_AFFINE | CT_CONVEX | CT_CONCAVE
| CT_NEITHER_CONVEX_NOR_CONCAVE.

#[global] Instance returnValue_eq_dec : EqDecision returnValue.
Proof. solve_decision. Defined.
#[global] Instance BooleanType_eq_dec : EqDecision BooleanType.
Proof. solve_decision. Defined.
#[global] Instance NeutralElement_eq_dec : EqDecision NeutralElement.
Proof. solve_decision. Defined.
#[global] Instance VariableType_eq_dec : EqDecision VariableType.
Proof. solve_decision. Defined.
#[global] Instance MonotonicityType_eq_dec : EqDecision MonotonicityType.
Proof. solve_decision. Defined.
#[global] Instance CurvatureType_eq_dec : EqDecision CurvatureType.
Proof. solve_decision. Defined.

(** ** C [int] arithmetic: 32-bit two's complement with its wrap-around *)

Definition INT_MAX : Z := 2 ^ 31 - 1.

Definition int_wrap (z : Z) : Z := (z + 2 ^ 31) mod 2 ^ 32 - 2 ^ 31.

Definition is_int (z : Z) : Prop := - 2 ^ 31 <= z <= INT_MAX.

(** ** Numeric part of [Power_Int] *)
Module Numeric.

Section PowerIntBuffers.

(** The [double] values and the libm / arithmetic operations the code uses. *)
Variable R : Type.
Variable pow : R -> Z -> R.
Variable Rmul Radd : R -> R -> R.
(** [(double) k] for an [int] [k]. *)
Variable RofZ : Z -> R.
(** Content of a cell that [realloc] adds to a buffer (not initialised). *)
Variable uninit : R.

(** The argument of the node is another operator, reached by a virtual call;
    its own state is [CS], the input vector [x] is of type [X]. *)
Variable CS X : Type.
(** [argument->evaluate(number, x, &r)]: return code, value written to [r]. *)
Variable child_evaluate : CS -> Z -> X -> returnValue * R * CS.
(** [argument->AD_forward(number, x, seed, &f, &df)]. *)
Variable child_AD_forward5 : CS -> Z -> X -> X -> returnValue * R * R * CS.
(** [argument->AD_forward(number, seed, &df)]. *)
Variable child_AD_forward : CS -> Z -> X -> returnValue * R * CS.
(** [argument->AD_backward(number, seed, df)]; [df] is the caller's array. *)
Variable child_AD_backward : CS -> Z -> R -> returnValue * CS.
(** [argument->AD_forward2(number, seed, dseed, &df, &ddf)]. *)
Variable child_AD_forward2 : CS -> Z -> X -> X -> returnValue * R * R * CS.
(** [argument->AD_backward2(number, seed1, seed2, df, ddf)]. *)
Variable child_AD_backward2 : CS -> Z -> R -> R -> returnValue * CS.

(** The buffer fields of a [Power_Int] node. *)
Record PowerIntBuf := mkBuf {
  exponent : Z;
  argument_result : list R;
  dargument_result : list R;
  bufferSize : Z
}.

(** The two buffers hold [bufferSize] cells. *)
Definition buf_wf (s : PowerIntBuf) : Prop :=
  0 <= bufferSize s /\
  length (argument_result s) = Z.to_nat (bufferSize s) /\
  length (dargument_result s) = Z.to_nat (bufferSize s).

(** [Power_Int(_argument, _exponent)]: both buffers [calloc]ed with one cell. *)
Definition construct (zero : R) (e : Z) : PowerIntBuf :=
  mkBuf e [zero] [zero] 1.

(** [realloc(p, size*sizeof(double))]: the old prefix is kept, new cells are
    uninitialised; a negative [int] size converts to a huge [size_t], the
    allocation fails and the buffer has no cell left. *)
Definition realloc (l : list R) (size : Z) : list R :=
  resize (Z.to_nat size) uninit l.

(** [p[i]] read, [None] when [i] is outside the allocated cells. *)
Definition buf_get (l : list R) (i : Z) : option R :=
  if (0 <=? i) && (i <? Z.of_nat (length l)) then l !! Z.to_nat i else None.

(** [p[i] = v], [None] when [i] is outside the allocated cells. *)
Definition buf_set (l : list R) (i : Z) (v : R) : option (list R) :=
  if (0 <=? i) && (i <? Z.of_nat (length l)) then Some (<[Z.to_nat i := v]> l)
  else None.

(** The growth step shared by [evaluate] and the five-argument [AD_forward]:
    [if( number >= bufferSize ){ bufferSize += number; realloc ... }]. *)
Definition grow (s : PowerIntBuf) (number : Z) : PowerIntBuf :=
  if number >=? bufferSize s then
    let bs := int_wrap (bufferSize s + number) in
    mkBuf (exponent s) (realloc (argument_result s) bs)
          (realloc (dargument_result s) bs) bs
  else s.

(** [Power_Int::evaluate(number, x, result)]: the return code, [result[0]],
    the node state and the argument's state; [None] is an out-of-bounds
    buffer access. *)
Definition evaluate (s : PowerIntBuf) (cs : CS) (number : Z) (x : X)
  : option (returnValue * R * PowerIntBuf * CS) :=
  let s1 := grow s number in
  let '(_, v, cs1) := child_evaluate cs number x in
  ar ← buf_set (argument_result s1) number v;
  a ← buf_get ar number;
  Some (SUCCESSFUL_RETURN, pow a (exponent s1),
        mkBuf (exponent s1) ar (dargument_result s1) (bufferSize s1), cs1).

(** [Power_Int::AD_forward(number, x, seed, f, df)]: [(rc, f[0], df[0])]. *)
Definition AD_forward5 (s : PowerIntBuf) (cs : CS) (number : Z) (x seed : X)
  : option (returnValue * R * R * PowerIntBuf * CS) :=
  let s1 := grow s number in
  let '(_, v, dv, cs1) := child_AD_forward5 cs number x seed in
  ar ← buf_set (argument_result s1) number v;
  dar ← buf_set (dargument_result s1) number dv;
  a ← buf_get ar number;
  a' ← buf_get ar number;
  d ← buf_get dar number;
  let e := exponent s1 in
  Some (SUCCESSFUL_RETURN, pow a e,
        Rmul (Rmul (RofZ e) (pow a' (int_wrap (e - 1)))) d,
        mkBuf e ar dar (bufferSize s1), cs1).

(** [Power_Int::AD_forward(number, seed, df)]: no growth of the buffers. *)
Definition AD_forward (s : PowerIntBuf) (cs : CS) (number : Z) (seed : X)
  : option (returnValue * R * PowerIntBuf * CS) :=
  let '(_, dv, cs1) := child_AD_forward cs number seed in
  dar ← buf_set (dargument_result s) number dv;
  a ← buf_get (argument_result s) number;
  d ← buf_get dar number;
  let e := exponent s in
  Some (SUCCESSFUL_RETURN, Rmul (Rmul (RofZ e) (pow a (int_wrap (e - 1)))) d,
        mkBuf e (argument_result s) dar (bufferSize s), cs1).

(** [Power_Int::AD_backward(number, seed, df)]: returns the argument's code. *)
Definition AD_backward (s : PowerIntBuf) (cs : CS) (number : Z) (seed : R)
  : option (returnValue * PowerIntBuf * CS) :=
  a ← buf_get (argument_result s) number;
  let e := exponent s in
  let '(rc, cs1) :=
    child_AD_backward cs number (Rmul (Rmul (RofZ e) (pow a (int_wrap (e - 1)))) seed) in
  Some (rc, s, cs1).

(** [Power_Int::AD_forward2(number, seed, dseed, df, ddf)]:
    [(rc, df[0], ddf[0])]; [exponent*(exponent-1)] is an [int] product. *)
Definition AD_forward2 (s : PowerIntBuf) (cs : CS) (number : Z) (seed dseed : X)
  : option (returnValue * R * R * PowerIntBuf * CS) :=
  let '(_, dargument_result2, ddargument_result, cs1) :=
    child_AD_forward2 cs number seed dseed in
  a ← buf_get (argument_result s) number;
  d ← buf_get (dargument_result s) number;
  a' ← buf_get (argument_result s) number;
  let e := exponent s in
  let nn := Rmul (RofZ e) (pow a (int_wrap (e - 1))) in
  Some (SUCCESSFUL_RETURN, Rmul nn dargument_result2,
        Radd (Rmul nn ddargument_result)
             (Rmul (Rmul (Rmul (RofZ (int_wrap (e * int_wrap (e - 1)))) d)
                         dargument_result2)
                   (pow a' (int_wrap (e - 2)))),
        s, cs1).

(** [Power_Int::AD_backward2(number, seed1, seed2, df, ddf)];
    [seed1*exponent*(exponent-1)] is evaluated left to right in [double]. *)
Definition AD_backward2 (s : PowerIntBuf) (cs : CS) (number : Z) (seed1 seed2 : R)
  : option (returnValue * PowerIntBuf * CS) :=
  a ← buf_get (argument_result s) number;
  let e := exponent s in
  let nn := Rmul (RofZ e) (pow a (int_wrap (e - 1))) in
  a' ← buf_get (argument_result s) number;
  d ← buf_get (dargument_result s) number;
  let '(_, cs1) :=
    child_AD_backward2 cs number (Rmul seed1 nn)
      (Radd (Rmul seed2 nn)
            (Rmul (Rmul (Rmul (Rmul seed1 (RofZ e)) (RofZ (int_wrap (e - 1))))
                        (pow a' (int_wrap (e - 2)))) d)) in
  Some (SUCCESSFUL_RETURN, s, cs1).

(** [Power_Int::clearBuffer()]. *)
Definition clearBuffer (s : PowerIntBuf) : PowerIntBuf :=
  if bufferSize s >? 1 then
    mkBuf (exponent s) (realloc (argument_result s) 1)
          (realloc (dargument_result s) 1) 1
  else s.

(** [calloc(size, sizeof(double))]: [size] cells set to [0.0]; a negative
    [int] size converts to a huge [size_t] and the allocation fails. *)
Definition calloc (zero : R) (size : Z) : list R := replicate (Z.to_nat size) zero.

(** The loop of the copy constructor,
    [for( run1 = 0; run1 < bufferSize; run1++ )], copying both buffers of
    [arg] cell by cell; [fuel] is the number of iterations left. *)
Fixpoint copy_loop (arg : PowerIntBuf) (ar dar : list R) (run1 : Z) (fuel : nat)
  : option (list R * list R) :=
  match fuel with
  | O => Some (ar, dar)
  | S f =>
      v ← buf_get (argument_result arg) run1;
      ar' ← buf_set ar run1 v;
      dv ← buf_get (dargument_result arg) run1;
      dar' ← buf_set dar run1 dv;
      copy_loop arg ar' dar' (run1 + 1) f
  end.

(** [Power_Int(const Power_Int &arg)]: buffers of [arg.bufferSize] cells
    [calloc]ed, then filled by [copy_loop]. *)
Definition copy_construct (zero : R) (arg : PowerIntBuf) : option PowerIntBuf :=
  let bs := bufferSize arg in
  match copy_loop arg (calloc zero bs) (calloc zero bs) 0 (Z.to_nat bs) with
  | Some (ar, dar) => Some (mkBuf (exponent arg) ar dar bs)
  | None => None
  end.

(** [Power_Int::operator=(arg)]; [self] is [this == &arg]. Otherwise the
    buffers are freed and [calloc]ed again with [arg.bufferSize] cells, the
    cells of [arg] are not copied. *)
Definition assign (zero : R) (self : bool) (this arg : PowerIntBuf) : PowerIntBuf :=
  if self then this
  else mkBuf (exponent arg) (calloc zero (bufferSize arg)) (calloc zero (bufferSize arg))
             (bufferSize arg).

End PowerIntBuffers.

End Numeric.

(** ** Classification queries of [Power_Int] *)
Module Classify.

Section ParityTest.

(** [double] arithmetic: a [double] is read as the rational it denotes and
    every rounded operation returns [round] of its exact result. *)
Variable round : Q -> Q.
(** The constant [EPS] of [acado_constants.hpp], a [double]. *)
Variable EPS : Q.

(** [a < b] on [double]s. *)
Definition Qltb (a b : Q) : bool := negb (Qle_bool b a).

(** The test written in [getMonotonicity] and [getCurvature],
    [fabs( ceil( ((double) exponent)/2.0 - EPS ) - ((double) exponent)/2.0 ) < 10.0*EPS]:
    the conversion, the division, the two subtractions and the product are
    rounded; [ceil], [fabs] and [<] are exact. *)
Definition exponent_is_even (exponent : Z) : bool :=
  let half := round (round (inject_Z exponent) / 2) in
  Qltb (Qabs (round (inject_Z (Qceiling (round (half - EPS))) - half)))
       (round (10 * EPS)).

(** The classification fields of a [Power_Int] node. *)
Record PowerIntClass := mkClass {
  exponent : Z;
  curvature : CurvatureType;
  monotonicity : MonotonicityType
}.

(** [Power_Int(_argument, _exponent)]: both caches [UNKNOWN]. *)
Definition construct (e : Z) : PowerIntClass := mkClass e CT_UNKNOWN MT_UNKNOWN.

(** [Power_Int::getMonotonicity()]; [m] is [argument->getMonotonicity()],
    called only when the cache is [MT_UNKNOWN]. The node is returned
    unchanged: the method writes no field. *)
Definition getMonotonicity (s : PowerIntClass) (m : MonotonicityType)
  : MonotonicityType * PowerIntClass :=
  if decide (monotonicity s <> MT_UNKNOWN) then (monotonicity s, s) else
  if decide (m = MT_CONSTANT) then (MT_CONSTANT, s) else
  if exponent_is_even (exponent s) then
    (if decide (exponent s = 0) then MT_CONSTANT else MT_NONMONOTONIC, s)
  else
    (if decide (exponent s > 0) then m else MT_NONMONOTONIC, s).

(** [Power_Int::getCurvature()]; [cc] is [argument->getCurvature()]. *)
Definition getCurvature (s : PowerIntClass) (cc : CurvatureType)
  : CurvatureType * PowerIntClass :=
  if decide (curvature s <> CT_UNKNOWN) then (curvature s, s) else
  if decide (cc = CT_CONSTANT) then (CT_CONSTANT, s) else
  if exponent_is_even (exponent s) then
    (if decide (exponent s < 0) then CT_NEITHER_CONVEX_NOR_CONCAVE
     else if decide (exponent s = 0) then CT_CONSTANT
     else if decide (cc = CT_AFFINE) then CT_CONVEX
     else CT_NEITHER_CONVEX_NOR_CONCAVE, s)
  else
    (if decide (exponent s = 1) then cc else CT_NEITHER_CONVEX_NOR_CONCAVE, s).

End ParityTest.

(** [Power_Int::setMonotonicity(monotonicity_)]. *)
Definition setMonotonicity (s : PowerIntClass) (m : MonotonicityType)
  : returnValue * PowerIntClass :=
  (SUCCESSFUL_RETURN, mkClass (exponent s) (curvature s) m).

(** [Power_Int::setCurvature(curvature_)]. *)
Definition setCurvature (s : PowerIntClass) (c : CurvatureType)
  : returnValue * PowerIntClass :=
  (SUCCESSFUL_RETURN, mkClass (exponent s) c (monotonicity s)).

(** [Power_Int::isLinearIn(dim, varType, component, implicit_dep)];
    [arg] is the argument's answer to the same query. *)
Definition isLinearIn (exponent : Z) (arg : BooleanType) : BooleanType :=
  if decide (exponent = 0) then BT_TRUE
  else if decide (exponent = 1 /\ arg = BT_TRUE) then BT_TRUE
  else BT_FALSE.

(** [Power_Int::isPolynomialIn(...)]. *)
Definition isPolynomialIn (exponent : Z) (arg : BooleanType) : BooleanType :=
  if decide (arg = BT_TRUE /\ exponent >= 0) then BT_TRUE else BT_FALSE.

(** [Power_Int::isRationalIn(...)]. *)
Definition isRationalIn (arg : BooleanType) : BooleanType :=
  if decide (arg = BT_TRUE) then BT_TRUE else BT_FALSE.

End Classify.

(** ** The numeric derivatives of [asin] (asin.cpp) *)
Module AsinNumeric.

Section Doubles.

(** [double] arithmetic as in [Classify]: [round] of the exact result;
    [sqrt] is the (rounded) [sqrt] of libm. *)
Variable round : Q -> Q.
Variable sqrt : Q -> Q.

(** [double dAsin(double x){ return 1/sqrt(1-x*x); }] *)
Definition dAsin (x : Q) : Q :=
  round (1 / sqrt (round (1 - round (x * x)))).

(** [double ddAsin(double x){ double v1 = sqrt(1-x*x);
    return -2*x*(-0.5/v1/v1/v1); }] *)
Definition ddAsin (x : Q) : Q :=
  let v1 := sqrt (round (1 - round (x * x))) in
  round (round (-2 * x) * round (round (round (-(1 # 2) / v1) / v1) / v1)).

End Doubles.

End AsinNumeric.

(** ** Symbolic part: expression trees over [Power_Int] and [Asin] *)
Module Symbolic.

Section Expressions.

(** [double] values, [pow] and [asin] of libm, [*] on [double]. *)
Variable R : Type.
Variable pow : R -> Z -> R.
Variable asin : R -> R.
Variable Rmul : R -> R -> R.
(** The [double]s [0.0] and [1.0]. *)
Variable zero one : R.
(** [stream << v] for a [double]. *)
Variable print_double : R -> string.

(** Operator nodes; an expression DAG is read as the tree it unfolds to.
    Only [Power_Int] and [Asin] are in [src/]; the variable leaf, the constant
    and the product are the collaborators the two operators call. *)
Inductive Expr :=
| EVariable (vt : VariableType) (component : Z) (variableIndex : Z)
| EDoubleConstant (value : R) (ne : NeutralElement)
| EPower_Int (argument : Expr) (exponent : Z)
| EAsin (argument : Expr)
| EProduct (argument1 argument2 : Expr).

(** [evaluate(number, x, result)]: the value written to [result[0]].
    [Power_Int]: [pow(argument_result[number], exponent)] (powerint.cpp).
    Modelled from the spec: the variable leaf reads [x[variableIndex]], the
    constant yields its value, [Asin] (its [UnaryOperator::evaluate] is not in
    [src/]) applies [fcn = &asin], the product multiplies. *)
Fixpoint evaluate (x : Z -> R) (e : Expr) : R :=
  match e with
  | EVariable _ _ i => x i
  | EDoubleConstant v _ => v
  | EPower_Int a n => pow (evaluate x a) n
  | EAsin a => asin (evaluate x a)
  | EProduct a b => Rmul (evaluate x a) (evaluate x b)
  end.

(** [substitute(index, sub)]. [Power_Int]: [new Power_Int(argument->substitute(index, sub), exponent)];
    [Asin]: [new Asin(argument->substitute(index, sub))].
    Modelled from the spec ("variable [index] replaced everywhere by
    [subExpr]"): a variable leaf with that index becomes [sub], other leaves
    are kept, the product substitutes in both factors. *)
Fixpoint substitute (index : Z) (sub : Expr) (e : Expr) : Expr :=
  match e with
  | EVariable vt c i => if decide (i = index) then sub else EVariable vt c i
  | EDoubleConstant v ne => EDoubleConstant v ne
  | EPower_Int a n => EPower_Int (substitute index sub a) n
  | EAsin a => EAsin (substitute index sub a)
  | EProduct a b => EProduct (substitute index sub a) (substitute index sub b)
  end.

(** [isOneOrZero()]. [Power_Int]: [NE_NEITHER_ONE_NOR_ZERO].
    Modelled from the spec: a constant reports its literal classification,
    every other node "neither". *)
Definition isOneOrZero (e : Expr) : NeutralElement :=
  match e with
  | EDoubleConstant _ ne => ne
  | EPower_Int _ _ => NE_NEITHER_ONE_NOR_ZERO
  | _ => NE_NEITHER_ONE_NOR_ZERO
  end.

(** Modelled from the spec: the factory [myProd] folds multiplication by a
    zero or a one before it allocates a [Product]. *)
Definition myProd (a b : Expr) : Expr :=
  match isOneOrZero a, isOneOrZero b with
  | NE_ZERO, _ | _, NE_ZERO => EDoubleConstant zero NE_ZERO
  | NE_ONE, _ => b
  | _, NE_ONE => a
  | _, _ => EProduct a b
  end.

(** [isDependingOn(VariableType var)]. [Power_Int]: [argument->isDependingOn(var)].
    Modelled from the spec: a variable leaf depends on [var] when it is of
    that type, a constant on nothing, [Asin] and the product through their
    arguments. *)
Fixpoint isDependingOn (e : Expr) (var : VariableType) : BooleanType :=
  match e with
  | EVariable vt _ _ => if decide (vt = var) then BT_TRUE else BT_FALSE
  | EDoubleConstant _ _ => BT_FALSE
  | EPower_Int a _ => isDependingOn a var
  | EAsin a => isDependingOn a var
  | EProduct a b =>
      match isDependingOn a var with BT_TRUE => BT_TRUE | BT_FALSE => isDependingOn b var end
  end.

(** [isDependingOn(dim, varType, component, implicit_dep)]; the [dim]
    directions are the pairs [(varType[i], component[i])].
    [Power_Int]: [BT_FALSE] when [exponent == 0], else the argument's answer.
    Modelled from the spec: a variable leaf depends on a direction naming its
    type and component, a constant on none, [Asin] and the product through
    their arguments. *)
Fixpoint isDependingOn_dir (e : Expr) (dirs : list (VariableType * Z)) : BooleanType :=
  match e with
  | EVariable vt c _ =>
      if decide (Exists (fun d => d = (vt, c)) dirs) then BT_TRUE else BT_FALSE
  | EDoubleConstant _ _ => BT_FALSE
  | EPower_Int a n => if decide (n = 0) then BT_FALSE else isDependingOn_dir a dirs
  | EAsin a => isDependingOn_dir a dirs
  | EProduct a b =>
      match isDependingOn_dir a dirs with
      | BT_TRUE => BT_TRUE
      | BT_FALSE => isDependingOn_dir b dirs
      end
  end.

(** [Power_Int::differentiate(index)] on a node with cached [derivative] and
    field [dargument]; [argument_differentiate] is the virtual call
    [argument->differentiate]. Returns the derivative and the new
    [dargument] field. *)
Definition PowerInt_differentiate (derivative dargument : Expr) (exponent : Z)
  (argument_differentiate : Z -> Expr) (index : Z) : Expr * Expr :=
  if decide (exponent = 0) then (EDoubleConstant zero NE_ZERO, dargument)
  else
    let dargument' := argument_differentiate index in
    (myProd derivative dargument', dargument').

(** [isVariable(varType, component)]. [Power_Int]: [BT_FALSE].
    Modelled from the spec: [BT_TRUE] exactly on a bare variable leaf. *)
Definition isVariable (e : Expr) : BooleanType :=
  match e with
  | EVariable _ _ _ => BT_TRUE
  | _ => BT_FALSE
  end.

(** Modelled (the export names are out of the core): the name a variable
    leaf prints, e.g. [xd[0]]. *)
Definition variable_prefix (vt : VariableType) : string :=
  match vt with
  | VT_DIFFERENTIAL_STATE => "xd" | VT_ALGEBRAIC_STATE => "xa"
  | VT_CONTROL => "u" | VT_INTEGER_CONTROL => "v" | VT_PARAMETER => "p"
  | VT_INTEGER_PARAMETER => "q" | VT_DISTURBANCE => "w" | VT_TIME => "t"
  | VT_INTERMEDIATE_STATE => "a"
  end.

(** [print(stream)]. [Power_Int] (powerint.cpp 442-459):
    [(arg)] for exponent 1, [((arg)*(arg))] for exponent 2 on a variable,
    [(pow(arg,n))] otherwise, [n] written as a decimal [int].
    Modelled: a variable prints its name, a constant its value, [Asin] as
    [(asin(arg))], the product as [(a*b)]. *)
Fixpoint print (e : Expr) : string :=
  match e with
  | EVariable vt c _ => variable_prefix vt +:+ "[" +:+ pretty c +:+ "]"
  | EDoubleConstant v _ => print_double v
  | EPower_Int a n =>
      if decide (n = 1) then "(" +:+ print a +:+ ")"
      else if decide (n = 2 /\ isVariable a = BT_TRUE) then
        "((" +:+ print a +:+ ")*(" +:+ print a +:+ "))"
      else "(pow(" +:+ print a +:+ "," +:+ pretty n +:+ "))"
  | EAsin a => "(asin(" +:+ print a +:+ "))"
  | EProduct a b => "(" +:+ print a +:+ "*" +:+ print b +:+ ")"
  end.

End Expressions.

Arguments EVariable {R}.
Arguments EDoubleConstant {R}.
Arguments EPower_Int {R}.
Arguments EAsin {R}.
Arguments EProduct {R}.

End Symbolic.

(** ** [initDerivative] over a heap of shared operator nodes *)
Module Heap.

(** A [SharedOperator] that is not null: the address of a node. *)
Abbreviation ptr := N (only parsing).

(** Operator nodes as stored in the heap; [derivative] / [derivative2] are
    the [SharedOperator] caches, [None] for the null handle. *)
Inductive OpNode :=
| HVariable (vt : VariableType) (component : Z)
| HDoubleConstant (value : Q) (ne : NeutralElement)
| HPower_Int (argument : ptr) (exponent : Z) (derivative derivative2 : option ptr)
| HAsin (argument : ptr) (derivative derivative2 : option ptr)
| HProduct (argument1 argument2 : ptr)
| HAddition (argument1 argument2 : ptr)
| HPower (argument1 argument2 : ptr)
| HTreeProjection (argument : ptr).

(** The heap, the next fresh address, and the log of the nodes whose
    [initDerivative] was entered (most recent first). *)
Record State := mkState {
  heap : gmap N OpNode;
  next_ptr : N;
  visits : list ptr
}.

(** A [Power_Int] node whose [derivative] is set has its [derivative2] set
    too (so it is not caught between the two assignments). *)
Definition pint_ok (n : OpNode) : bool :=
  match n with
  | HPower_Int _ _ (Some _) None => false
  | _ => true
  end.

(** Addresses in use are below [next_ptr]: [new] returns a fresh node. *)
Definition heap_wf (s : State) : Prop :=
  map_Forall (fun k _ => (k < next_ptr s)%N) (heap s).

(** The guard of [initDerivative]: [derivative != 0] for [Power_Int],
    [derivative != 0 && derivative2 != 0] for [Asin]. *)
Definition initialised (n : OpNode) : bool :=
  match n with
  | HPower_Int _ _ (Some _) _ => true
  | HAsin _ (Some _) (Some _) => true
  | _ => false
  end.

Definition visit (p : ptr) (s : State) : State :=
  mkState (heap s) (next_ptr s) (p :: visits s).

(** [new Node(...)]: a fresh address. *)
Definition alloc (n : OpNode) (s : State) : ptr * State :=
  (next_ptr s, mkState (<[next_ptr s := n]> (heap s)) (N.succ (next_ptr s)) (visits s)).

(** An assignment to a field of the node at [p]. *)
Definition write (p : ptr) (n : OpNode) (s : State) : State :=
  mkState (<[p := n]> (heap s)) (next_ptr s) (visits s).

(** Modelled from the spec: [isOneOrZero] — a constant reports its literal
    classification, every other node "neither". *)
Definition isOneOrZero (p : ptr) (s : State) : NeutralElement :=
  match heap s !! p with
  | Some (HDoubleConstant _ ne) => ne
  | _ => NE_NEITHER_ONE_NOR_ZERO
  end.

(** Modelled from the spec: the factory [myProd] folds a factor zero or one
    before allocating a [Product]. *)
Definition myProd (a b : ptr) (s : State) : ptr * State :=
  match isOneOrZero a s, isOneOrZero b s with
  | NE_ZERO, _ | _, NE_ZERO => alloc (HDoubleConstant 0 NE_ZERO) s
  | NE_ONE, _ => (b, s)
  | _, NE_ONE => (a, s)
  | _, _ => alloc (HProduct a b) s
  end.

(** Modelled from the spec: the factory [myPowerInt] folds [1^n], [a^0] and
    [a^1] before allocating a [Power_Int]. *)
Definition myPowerInt (a : ptr) (n : Z) (s : State) : ptr * State :=
  if decide (isOneOrZero a s = NE_ONE) then (a, s)
  else if decide (n = 0) then alloc (HDoubleConstant 1 NE_ONE) s
  else if decide (n = 1) then (a, s)
  else alloc (HPower_Int a n None None) s.

(** Modelled from the spec (the derivative caches are subexpressions of
    their own): [convert2TreeProjection] wraps its argument in one fresh
    node. *)
Definition convert2TreeProjection (a : ptr) (s : State) : ptr * State :=
  alloc (HTreeProjection a) s.

(** A nested [new] expression of the source: fresh nodes built bottom-up,
    left to right, over existing nodes [NRef]. *)
Inductive NewExpr :=
| NRef (p : ptr)
| NDoubleConstant (value : Q) (ne : NeutralElement)
| NPower_Int (argument : NewExpr) (exponent : Z)
| NProduct (argument1 argument2 : NewExpr)
| NAddition (argument1 argument2 : NewExpr)
| NPower (argument1 argument2 : NewExpr).

Fixpoint alloc_new (e : NewExpr) (s : State) : ptr * State :=
  match e with
  | NRef p => (p, s)
  | NDoubleConstant v ne => alloc (HDoubleConstant v ne) s
  | NPower_Int a n =>
      let '(pa, s) := alloc_new a s in alloc (HPower_Int pa n None None) s
  | NProduct a b =>
      let '(pa, s) := alloc_new a s in
      let '(pb, s) := alloc_new b s in alloc (HProduct pa pb) s
  | NAddition a b =>
      let '(pa, s) := alloc_new a s in
      let '(pb, s) := alloc_new b s in alloc (HAddition pa pb) s
  | NPower a b =>
      let '(pa, s) := alloc_new a s in
      let '(pb, s) := alloc_new b s in alloc (HPower pa pb) s
  end.

(** [(1 + (-1)*argument^2)^e], the base shared by the [Asin] caches. *)
Definition asin_base_power (argument : ptr) (e : Q) : NewExpr :=
  NPower (NAddition (NDoubleConstant 1 NE_ONE)
                    (NProduct (NDoubleConstant (-1) NE_NEITHER_ONE_NOR_ZERO)
                              (NPower_Int (NRef argument) 2)))
         (NDoubleConstant e NE_NEITHER_ONE_NOR_ZERO).

(** [initDerivative()] of the node at [p], with [fuel] bounding the depth of
    the recursion ([None]: out of fuel or a dangling address).
    [Power_Int] (powerint.cpp 194-212) and [Asin] (asin.cpp 112-148) as in
    the source; modelled from the spec for the other nodes only as far as
    their calls into their arguments go: a leaf has no cache, the other
    operators initialise their arguments (their own derivative caches are
    not represented). *)
Fixpoint initDerivative (fuel : nat) (p : ptr) (s0 : State)
  : option (returnValue * State) :=
  match fuel with
  | O => None
  | S f =>
    let s := visit p s0 in
    match heap s !! p with
    | None => None
    | Some (HPower_Int argument exponent derivative derivative2) =>
        match derivative with
        | Some _ => Some (SUCCESSFUL_RETURN, s)
        | None =>
          let '(powerTmp, s) := myPowerInt argument (int_wrap (exponent - 1)) s in
          let '(expTmp, s) :=
            alloc (HDoubleConstant (inject_Z exponent) NE_NEITHER_ONE_NOR_ZERO) s in
          let '(prod1, s) := myProd expTmp powerTmp s in
          let '(d, s) := convert2TreeProjection prod1 s in
          let s := write p (HPower_Int argument exponent (Some d) derivative2) s in
          let '(powerTmp2, s) := myPowerInt argument (int_wrap (exponent - 2)) s in
          let '(expTmp2, s) :=
            alloc (HDoubleConstant (inject_Z exponent - 1) NE_NEITHER_ONE_NOR_ZERO) s in
          let '(prodTmp, s) := myProd expTmp expTmp2 s in
          let '(prod2, s) := myProd prodTmp powerTmp2 s in
          let '(d2, s) := convert2TreeProjection prod2 s in
          let s := write p (HPower_Int argument exponent (Some d) (Some d2)) s in
          initDerivative f argument s
        end
    | Some (HAsin argument derivative derivative2) =>
        match derivative, derivative2 with
        | Some _, Some _ => Some (SUCCESSFUL_RETURN, s)
        | _, _ =>
          let '(pw, s) := alloc_new (asin_base_power argument (-1 # 2)) s in
          let '(d, s) := convert2TreeProjection pw s in
          let s := write p (HAsin argument (Some d) derivative2) s in
          let '(pr, s) :=
            alloc_new (NProduct (asin_base_power argument (-3 # 2)) (NRef argument)) s in
          let '(d2, s) := convert2TreeProjection pr s in
          let s := write p (HAsin argument (Some d) (Some d2)) s in
          initDerivative f argument s
        end
    | Some (HVariable _ _) | Some (HDoubleConstant _ _) => Some (SUCCESSFUL_RETURN, s)
    | Some (HProduct a b) | Some (HAddition a b) | Some (HPower a b) =>
        match initDerivative f a s with
        | Some (SUCCESSFUL_RETURN, s') => initDerivative f b s'
        | r => r
        end
    | Some (HTreeProjection a) => initDerivative f a s
    end
  end.

(** The argument and the two caches of a [Power_Int] or [Asin] node. *)
Definition cached_node (n : OpNode) : option (ptr * option ptr * option ptr) :=
  match n with
  | HPower_Int a _ d d2 => Some (a, d, d2)
  | HAsin a d d2 => Some (a, d, d2)
  | _ => None
  end.

End Heap.

(** ** A concrete instance used to run the models

    Exact rationals stand for [double]; the argument of the node is a bare
    variable leaf reading [x[0]] (and [seed[0]]), with no state of its own. *)
Module QInstance.

Definition var0_evaluate (cs : unit) (number : Z) (x : Z -> Q) : returnValue * Q * unit :=
  (SUCCESSFUL_RETURN, x 0, cs).

Definition var0_AD_forward (cs : unit) (number : Z) (seed : Z -> Q) : returnValue * Q * unit :=
  (SUCCESSFUL_RETURN, seed 0, cs).

Definition var0_AD_backward (cs : unit) (number : Z) (seed : Q) : returnValue * unit :=
  (SUCCESSFUL_RETURN, cs).

Definition var0_AD_forward2 (cs : unit) (number : Z) (seed dseed : Z -> Q)
  : returnValue * Q * Q * unit :=
  (SUCCESSFUL_RETURN, seed 0, 0%Q, cs).

Definition var0_AD_backward2 (cs : unit) (number : Z) (seed1 seed2 : Q) : returnValue * unit :=
  (SUCCESSFUL_RETURN, cs).

Definition var0_AD_forward5 (cs : unit) (number : Z) (x seed : Z -> Q)
  : returnValue * Q * Q * unit :=
  (SUCCESSFUL_RETURN, x 0, seed 0, cs).

(** [Power_Int(x, 3)] freshly constructed, then slot 0 filled with
    [argument_result[0] = 7], [dargument_result[0] = 11]. *)
Definition node3 : Numeric.PowerIntBuf Q := Numeric.mkBuf Q 3 [7%Q] [11%Q] 1.

Definition x2 (_ : Z) : Q := 2%Q.

(** [Power_Int(x, 3)] after evaluations at slots 0 to 2. *)
Definition node_wide : Numeric.PowerIntBuf Q := Numeric.mkBuf Q 3 [7%Q; 5%Q; 2%Q] [11%Q; 1%Q; 0%Q] 3.

(** [node3] after [evaluate] at slot 5 with [x = x2]. *)
Definition node3_after5 : Numeric.PowerIntBuf Q :=
  match Numeric.evaluate Q Qpower 0%Q unit (Z -> Q) var0_evaluate node3 tt 5 x2 with
  | Some (_, _, s, _) => s
  | None => node3
  end.

(** Exact arithmetic: every rational is representable and rounding is the
    identity, a (degenerate) round-to-nearest format. *)
Definition exact_round (q : Q) : Q := q.

Definition any_double (q : Q) : Prop := True.

(** [EPS = 1.0e-16]. *)
Definition EPS_acado : Q := 1 # 10000000000000000.

(** A heap with the variable [xd[0]] at address 0 and the uninitialised
    node [Power_Int(xd[0], 3)] at address 1. *)
Definition heap_example : Heap.State :=
  Heap.mkState
    (<[1%N := Heap.HPower_Int 0 3 None None]>
       (<[0%N := Heap.HVariable VT_DIFFERENTIAL_STATE 0]> empty))
    2 [].

(** The state after [initDerivative] on address 1 of [heap_example]. *)
Definition heap_after : Heap.State :=
  match Heap.initDerivative 2 1 heap_example with
  | Some (_, s) => s
  | None => heap_example
  end.

End QInstance.

(** ** Proofs about the numeric part *)
Module NumericFacts.
Import Numeric.

Lemma int_wrap_small (z : Z) : is_int z -> int_wrap z = z.
Proof.
  unfold is_int, int_wrap, INT_MAX. intros Hz.
  rewrite Z.mod_small by lia. lia.
Qed.

Lemma int_wrap_overflow (z : Z) : INT_MAX < z < 2 ^ 32 + INT_MAX -> int_wrap z = z - 2 ^ 32.
Proof.
  unfold int_wrap, INT_MAX. intros Hz.
  rewrite <- (Z.mod_unique (z + 2 ^ 31) (2 ^ 32) 1 (z + 2 ^ 31 - 2 ^ 32)); lia.
Qed.

Section Buffers.
Context {R : Type} (uninit : R).

Lemma length_realloc (l : list R) (n : Z) :
  length (realloc R uninit l n) = Z.to_nat n.
Proof. unfold realloc. apply length_resize. Qed.

Lemma buf_get_in (l : list R) (i : Z) :
  0 <= i < Z.of_nat (length l) -> buf_get R l i = l !! Z.to_nat i.
Proof.
  intros Hi. unfold buf_get.
  destruct (0 <=? i) eqn:E1; [|apply Z.leb_nle in E1; lia].
  destruct (i <? Z.of_nat (length l)) eqn:E2; [done|apply Z.ltb_nlt in E2; lia].
Qed.

Lemma buf_get_out (l : list R) (i : Z) :
  i < 0 -> buf_get R l i = None.
Proof.
  intros Hi. unfold buf_get.
  destruct (0 <=? i) eqn:E1; [apply Z.leb_le in E1; lia|done].
Qed.

Lemma buf_set_in (l : list R) (i : Z) (v : R) :
  0 <= i < Z.of_nat (length l) -> buf_set R l i v = Some (<[Z.to_nat i := v]> l).
Proof.
  intros Hi. unfold buf_set.
  destruct (0 <=? i) eqn:E1; [|apply Z.leb_nle in E1; lia].
  destruct (i <? Z.of_nat (length l)) eqn:E2; [done|apply Z.ltb_nlt in E2; lia].
Qed.

Lemma buf_set_out (l : list R) (i : Z) (v : R) :
  ~ (0 <= i < Z.of_nat (length l)) -> buf_set R l i v = None.
Proof.
  intros Hi. unfold buf_set.
  destruct (0 <=? i) eqn:E1; simpl; [|done].
  destruct (i <? Z.of_nat (length l)) eqn:E2; [|done].
  apply Z.leb_le in E1. apply Z.ltb_lt in E2. lia.
Qed.

Lemma buf_get_in_Some (l : list R) (i : Z) :
  0 <= i < Z.of_nat (length l) -> exists v, buf_get R l i = Some v.
Proof.
  intros Hi. rewrite buf_get_in by done.
  apply lookup_lt_is_Some_2. lia.
Qed.

Lemma buf_get_set_eq (l : list R) (i : Z) (v : R) :
  0 <= i < Z.of_nat (length l) -> buf_get R (<[Z.to_nat i := v]> l) i = Some v.
Proof.
  intros Hi. rewrite buf_get_in by (rewrite length_insert; lia).
  apply list_lookup_insert_eq. lia.
Qed.

Lemma buf_get_set_ne (l : list R) (i j : Z) (v : R) :
  0 <= i -> 0 <= j -> i <> j ->
  buf_get R (<[Z.to_nat i := v]> l) j = buf_get R l j.
Proof.
  intros Hi Hj Hij. unfold buf_get. rewrite length_insert.
  destruct ((0 <=? j) && (j <? Z.of_nat (length l))); [|done].
  apply list_lookup_insert_ne. lia.
Qed.

Lemma buf_get_realloc (l : list R) (n j : Z) :
  0 <= j -> j < Z.of_nat (length l) -> j < n ->
  buf_get R (realloc R uninit l n) j = buf_get R l j.
Proof.
  intros H0 H1 H2. rewrite !buf_get_in; [| lia | rewrite length_realloc; lia].
  unfold realloc. apply lookup_resize; lia.
Qed.

End Buffers.

Section Node.
Context {R : Type} (pow : R -> Z -> R) (Rmul Radd : R -> R -> R) (RofZ : Z -> R)
  (uninit : R) {CS X : Type}
  (child_evaluate : CS -> Z -> X -> returnValue * R * CS)
  (child_AD_forward : CS -> Z -> X -> returnValue * R * CS)
  (child_AD_backward : CS -> Z -> R -> returnValue * CS)
  (child_AD_forward2 : CS -> Z -> X -> X -> returnValue * R * R * CS)
  (child_AD_backward2 : CS -> Z -> R -> R -> returnValue * CS).

Lemma grow_big (s : PowerIntBuf R) (number : Z) :
  bufferSize R s <= number -> is_int (bufferSize R s + number) ->
  grow R uninit s number =
  mkBuf R (exponent R s)
    (realloc R uninit (argument_result R s) (bufferSize R s + number))
    (realloc R uninit (dargument_result R s) (bufferSize R s + number))
    (bufferSize R s + number).
Proof.
  intros H1 H2. unfold grow.
  destruct (number >=? bufferSize R s) eqn:E; [|apply Z.geb_le in H1; congruence].
  rewrite int_wrap_small by done. reflexivity.
Qed.

(** C1 (code_bug): [Power_Int::evaluate] answers [SUCCESSFUL_RETURN] whatever
    the argument's [evaluate] returned (also [RET_NAN]) and whatever the
    buffered argument value is: the return code of the argument is dropped and
    no domain check is made. *)
Theorem evaluate_always_successful (s : PowerIntBuf R) (cs : CS) (number : Z) (x : X) :
  match evaluate R pow uninit CS X child_evaluate s cs number x with
  | Some (rc, _, _, _) => rc = SUCCESSFUL_RETURN
  | None => True
  end.
Proof.
  unfold evaluate.
  destruct (child_evaluate cs number x) as [[rc0 v] cs1].
  destruct (buf_set R _ number v) as [ar|]; simpl; [|done].
  destruct (buf_get R ar number); done.
Qed.

(** On a node whose buffers hold [bufferSize >= 1] cells,
    [evaluate] at a slot [number >= bufferSize] for which
    [bufferSize + number] fits in an [int] succeeds, leaves
    [bufferSize = old bufferSize + number > number], keeps the two buffers
    of [bufferSize] cells and every previously stored slot of
    [argument_result] and [dargument_result] unchanged. *)
Theorem evaluate_grows_buffers (s : PowerIntBuf R) (cs : CS) (number : Z) (x : X) :
  buf_wf R s -> 1 <= bufferSize R s -> bufferSize R s <= number ->
  bufferSize R s + number <= INT_MAX ->
  exists v s' cs',
    evaluate R pow uninit CS X child_evaluate s cs number x
      = Some (SUCCESSFUL_RETURN, v, s', cs') /\
    bufferSize R s' = bufferSize R s + number /\
    number < bufferSize R s' /\
    buf_wf R s' /\
    (forall j, 0 <= j < bufferSize R s ->
       buf_get R (argument_result R s') j = buf_get R (argument_result R s) j /\
       buf_get R (dargument_result R s') j = buf_get R (dargument_result R s) j).
Proof.
  intros (H0 & Ha & Hd) H1 H2 H3.
  assert (Hint : is_int (bufferSize R s + number)) by (unfold is_int, INT_MAX in *; lia).
  unfold evaluate. rewrite grow_big by done. simpl.
  destruct (child_evaluate cs number x) as [[rc0 v] cs1].
  rewrite buf_set_in by (rewrite length_realloc; lia). simpl.
  rewrite buf_get_set_eq by (rewrite length_realloc; lia). simpl.
  eexists _, _, _. split; [reflexivity|]. simpl.
  split; [done|]. split; [lia|].
  split.
  - unfold buf_wf; simpl. rewrite length_insert, !length_realloc. lia.
  - intros j Hj. rewrite buf_get_set_ne by lia.
    rewrite !buf_get_realloc by lia. done.
Qed.

(** C7 (code_bug): the growth of [evaluate] is defeated by the [int]
    overflow of [bufferSize += number]. On a node whose buffers hold
    [bufferSize] cells, at any [int] slot [number >= bufferSize] with
    [bufferSize + number > INT_MAX], the sum wraps to a negative
    [bufferSize], the [realloc]s leave no cell and the write to
    [argument_result[number]] is out of bounds: [evaluate] has no defined
    result, so the slot is never made addressable. *)
Theorem evaluate_overflow_no_growth (s : PowerIntBuf R) (cs : CS) (number : Z) (x : X) :
  buf_wf R s -> bufferSize R s <= number <= INT_MAX ->
  INT_MAX < bufferSize R s + number ->
  bufferSize R (grow R uninit s number) = bufferSize R s + number - 2 ^ 32 /\
  bufferSize R (grow R uninit s number) < 0 /\
  evaluate R pow uninit CS X child_evaluate s cs number x = None.
Proof.
  intros (H0 & Ha & Hd) H1 H2.
  assert (G : grow R uninit s number =
              mkBuf R (exponent R s)
                (realloc R uninit (argument_result R s) (bufferSize R s + number - 2 ^ 32))
                (realloc R uninit (dargument_result R s) (bufferSize R s + number - 2 ^ 32))
                (bufferSize R s + number - 2 ^ 32)).
  { unfold grow. destruct (number >=? bufferSize R s) eqn:E; [|rewrite Z.geb_leb in E; apply Z.leb_nle in E; lia].
    rewrite int_wrap_overflow by (unfold INT_MAX in *; lia). reflexivity. }
  rewrite G. simpl. split; [reflexivity|]. split; [unfold INT_MAX in *; lia|].
  unfold evaluate. rewrite G. simpl.
  destruct (child_evaluate cs number x) as [[rc0 v] cs1].
  rewrite buf_set_out; [reflexivity|].
  rewrite length_realloc. unfold INT_MAX in *. lia.
Qed.

(** C9 (amended): at a slot [0 <= number < bufferSize] of a node whose buffers
    hold [bufferSize] cells, the numeric [AD_forward] (seed form),
    [AD_backward], [AD_forward2] and [AD_backward2] make only in-bounds
    buffer accesses (they all reach their end, [None] being an access out of
    the buffers) and none of them changes [bufferSize]. *)
Theorem AD_sweeps_in_bounds (s : PowerIntBuf R) (cs : CS) (number : Z)
  (seed dseed : X) (rseed rseed2 : R) :
  buf_wf R s -> 0 <= number < bufferSize R s ->
  (exists df s' cs',
     AD_forward R pow Rmul RofZ CS X child_AD_forward s cs number seed
       = Some (SUCCESSFUL_RETURN, df, s', cs') /\
     bufferSize R s' = bufferSize R s /\ buf_wf R s') /\
  (exists rc s' cs',
     AD_backward R pow Rmul RofZ CS child_AD_backward s cs number rseed
       = Some (rc, s', cs') /\ bufferSize R s' = bufferSize R s) /\
  (exists df ddf s' cs',
     AD_forward2 R pow Rmul Radd RofZ CS X child_AD_forward2 s cs number seed dseed
       = Some (SUCCESSFUL_RETURN, df, ddf, s', cs') /\
     bufferSize R s' = bufferSize R s) /\
  (exists s' cs',
     AD_backward2 R pow Rmul Radd RofZ CS child_AD_backward2 s cs number rseed rseed2
       = Some (SUCCESSFUL_RETURN, s', cs') /\ bufferSize R s' = bufferSize R s).
Proof.
  intros (H0 & Ha & Hd) Hn.
  assert (Ha' : 0 <= number < Z.of_nat (length (argument_result R s))) by lia.
  assert (Hd' : 0 <= number < Z.of_nat (length (dargument_result R s))) by lia.
  destruct (buf_get_in_Some _ _ Ha') as [a Ea].
  destruct (buf_get_in_Some _ _ Hd') as [d Ed].
  split; [|split; [|split]].
  - unfold AD_forward.
    destruct (child_AD_forward cs number seed) as [[rc0 dv] cs1].
    rewrite buf_set_in by done. simpl. rewrite Ea. simpl.
    rewrite buf_get_set_eq by done. simpl.
    eexists _, _, _. split; [reflexivity|]. simpl. split; [done|].
    unfold buf_wf; simpl. rewrite length_insert. lia.
  - unfold AD_backward. rewrite Ea. simpl.
    destruct (child_AD_backward _ _ _) as [rc cs1].
    eexists _, _, _. split; reflexivity.
  - unfold AD_forward2.
    destruct (child_AD_forward2 cs number seed dseed) as [[[rc0 d2] dd2] cs1].
    rewrite Ea, Ed. simpl.
    eexists _, _, _, _. split; reflexivity.
  - unfold AD_backward2. rewrite Ea, Ed. simpl.
    destruct (child_AD_backward2 _ _ _ _) as [rc cs1].
    eexists _, _. split; reflexivity.
Qed.

End Node.

Import QInstance.

(** The growth of [evaluate] at the scenario of the spec: a node with
    [bufferSize = 1] evaluated at slot 5. *)
Lemma evaluate_grows_buffers_witness :
  buf_wf Q node3 /\ 1 <= bufferSize Q node3 /\ bufferSize Q node3 <= 5 /\
  bufferSize Q node3 + 5 <= INT_MAX /\
  exists v s' cs',
    evaluate Q Qpower 0%Q unit (Z -> Q) var0_evaluate node3 tt 5 x2
      = Some (SUCCESSFUL_RETURN, v, s', cs') /\
    bufferSize Q s' = bufferSize Q node3 + 5 /\
    5 < bufferSize Q s' /\
    buf_wf Q s' /\
    (forall j, 0 <= j < bufferSize Q node3 ->
       buf_get Q (argument_result Q s') j = buf_get Q (argument_result Q node3) j /\
       buf_get Q (dargument_result Q s') j = buf_get Q (dargument_result Q node3) j).
Proof.
  assert (W : buf_wf Q node3) by (unfold buf_wf; simpl; lia).
  split; [exact W|]. split; [simpl; lia|]. split; [simpl; lia|].
  split; [unfold INT_MAX; simpl; lia|].
  apply (evaluate_grows_buffers Qpower 0%Q var0_evaluate node3 tt 5 x2);
    [exact W | simpl; lia | simpl; lia | unfold INT_MAX; simpl; lia].
Defined.

(** Witness of C7: from [bufferSize = 1], slot [INT_MAX]; [bufferSize]
    wraps to [-2^31]. *)
Lemma evaluate_overflow_no_growth_witness :
  buf_wf Q node3 /\ bufferSize Q node3 <= INT_MAX <= INT_MAX /\
  INT_MAX < bufferSize Q node3 + INT_MAX /\
  bufferSize Q (grow Q 0%Q node3 INT_MAX) = bufferSize Q node3 + INT_MAX - 2 ^ 32 /\
  bufferSize Q (grow Q 0%Q node3 INT_MAX) < 0 /\
  evaluate Q Qpower 0%Q unit (Z -> Q) var0_evaluate node3 tt INT_MAX x2 = None.
Proof.
  assert (W : buf_wf Q node3) by (unfold buf_wf; simpl; lia).
  split; [exact W|]. split; [unfold INT_MAX; simpl; lia|].
  split; [unfold INT_MAX; simpl; lia|].
  exact (evaluate_overflow_no_growth Qpower 0%Q var0_evaluate node3 tt INT_MAX x2 W
           ltac:(unfold INT_MAX; simpl; lia) ltac:(unfold INT_MAX; simpl; lia)).
Defined.

(** Witness of C9: slot 0 of [node3]. *)
Lemma AD_sweeps_in_bounds_witness :
  buf_wf Q node3 /\ 0 <= 0 < bufferSize Q node3 /\
  (exists df s' cs',
     AD_forward Q Qpower Qmult inject_Z unit (Z -> Q) var0_AD_forward node3 tt 0 x2
       = Some (SUCCESSFUL_RETURN, df, s', cs') /\
     bufferSize Q s' = bufferSize Q node3 /\ buf_wf Q s') /\
  (exists rc s' cs',
     AD_backward Q Qpower Qmult inject_Z unit var0_AD_backward node3 tt 0 1%Q
       = Some (rc, s', cs') /\ bufferSize Q s' = bufferSize Q node3) /\
  (exists df ddf s' cs',
     AD_forward2 Q Qpower Qmult Qplus inject_Z unit (Z -> Q) var0_AD_forward2
       node3 tt 0 x2 x2
       = Some (SUCCESSFUL_RETURN, df, ddf, s', cs') /\
     bufferSize Q s' = bufferSize Q node3) /\
  (exists s' cs',
     AD_backward2 Q Qpower Qmult Qplus inject_Z unit var0_AD_backward2 node3 tt 0 1%Q 0%Q
       = Some (SUCCESSFUL_RETURN, s', cs') /\ bufferSize Q s' = bufferSize Q node3).
Proof.
  assert (W : buf_wf Q node3) by (unfold buf_wf; simpl; lia).
  split; [exact W|]. split; [simpl; lia|].
  apply (AD_sweeps_in_bounds Qpower Qmult Qplus inject_Z var0_AD_forward
           var0_AD_backward var0_AD_forward2 var0_AD_backward2 node3 tt 0 x2 x2 1%Q 0%Q);
    [exact W | simpl; lia].
Defined.

(** C9 counterexample: slot [-1] satisfies [number < bufferSize], yet the
    seed form of [AD_forward] writes [dargument_result[-1]], out of the
    buffer ([None]); [AD_backward] reads [argument_result[-1]]. *)
Lemma AD_forward_negative_slot_out_of_bounds :
  -1 < bufferSize Q node3 /\
  AD_forward Q Qpower Qmult inject_Z unit (Z -> Q) var0_AD_forward node3 tt (-1) x2 = None /\
  AD_backward Q Qpower Qmult inject_Z unit var0_AD_backward node3 tt (-1) 1%Q = None.
Proof. split; [simpl; lia|]. split; vm_compute; reflexivity. Qed.

End NumericFacts.

(** ** Proofs about the classification queries *)
Module ClassifyFacts.
Import Classify.
Local Open Scope Q_scope.

Section RoundToNearest.

(** A binary floating-point format: [is_double] are the representable
    values, [round] returns a nearest representable value. Binary64 with
    round-to-nearest satisfies the four hypotheses for every [EPS] in
    [(0, 1/32]], e.g. [1.0e-16]. *)
Context (round : Q -> Q) (is_double : Q -> Prop) (EPS : Q).
Hypothesis round_nearest :
  forall q f, is_double f -> Qabs (round q - q) <= Qabs (f - q).
Hypothesis half_integers_double :
  forall m : Z, (- 2 ^ 32 <= m <= 2 ^ 32)%Z -> is_double (m # 2).
Hypothesis EPS_double : is_double EPS.
Hypothesis EPS_range : 0 < EPS <= 1 # 32.

Lemma round_bound (q f d : Q) :
  is_double f -> - d <= f - q <= d -> q - d <= round q <= q + d.
Proof.
  intros Hf Hd.
  assert (H1 : Qabs (f - q) <= d) by (apply Qabs_Qle_condition; lra).
  pose proof (Qle_trans _ _ _ (round_nearest q f Hf) H1) as H2.
  apply Qabs_Qle_condition in H2. lra.
Qed.

Lemma round_exact (q f : Q) : is_double f -> q == f -> round q == q.
Proof. intros Hf Hq. pose proof (round_bound q f 0 Hf) as H. lra. Qed.

Lemma ceiling_between (t : Q) (k : Z) :
  inject_Z k - 1 < t -> t <= inject_Z k -> Qceiling t = k.
Proof.
  intros H1 H2.
  pose proof (Qceiling_resp_le _ _ H2) as H3. rewrite Qceiling_Z in H3.
  pose proof (Qle_ceiling t) as H4.
  assert (H5 : inject_Z (k - 1) == inject_Z k - 1) by (unfold Qeq; simpl; lia).
  assert (H6 : (k - 1 < Qceiling t)%Z) by (rewrite Zlt_Qlt; lra).
  lia.
Qed.

Lemma half_exponent (n : Z) :
  is_int n -> round (round (inject_Z n) / 2) == n # 2.
Proof.
  unfold is_int, INT_MAX. intros Hn.
  assert (E1 : round (inject_Z n) == inject_Z n).
  { apply (round_exact _ ((2 * n) # 2)).
    - apply half_integers_double. lia.
    - unfold Qeq; simpl; lia. }
  assert (E2 : round (inject_Z n) / 2 == n # 2).
  { rewrite E1. unfold Qeq, Qdiv, Qmult; simpl; lia. }
  rewrite (round_exact _ (n # 2)); [exact E2 | apply half_integers_double; lia | exact E2].
Qed.

(** The floating-point parity test of [getMonotonicity] / [getCurvature]
    agrees with the parity of the [int] exponent. *)
Lemma exponent_is_even_parity (n : Z) :
  is_int n -> exponent_is_even round EPS n = Z.even n.
Proof.
  intros Hn. unfold exponent_is_even.
  pose proof (half_exponent n Hn) as Hh.
  set (half := round (round (inject_Z n) / 2)) in *.
  unfold is_int, INT_MAX in Hn.
  assert (Hten : EPS <= round (10 * EPS) <= 1 # 2).
  { pose proof (round_bound (10 * EPS) EPS (9 * EPS) EPS_double) as Ha.
    pose proof (round_bound (10 * EPS) (1 # 2) ((1 # 2) - 10 * EPS)) as Hb.
    assert (Hd : is_double (1 # 2)) by (apply half_integers_double; lia).
    specialize (Ha ltac:(lra)). specialize (Hb Hd ltac:(lra)). lra. }
  destruct (Z.Even_or_Odd n) as [[k Hk]|[k Hk]].
  - (* even exponent: [half] is the integer [k] *)
    assert (Hk' : half == inject_Z k) by (rewrite Hh; unfold Qeq; simpl; lia).
    assert (Hf : is_double (n # 2)) by (apply half_integers_double; lia).
    pose proof (round_bound (half - EPS) (n # 2) EPS Hf ltac:(lra)) as Ht.
    rewrite (ceiling_between (round (half - EPS)) k) by lra.
    assert (Hz : is_double (0 # 2)) by (apply half_integers_double; lia).
    assert (H0 : round (inject_Z k - half) == 0).
    { assert (Z0 : 0 # 2 == 0) by reflexivity.
      rewrite (round_exact _ (0 # 2) Hz); lra. }
    assert (Habs : Qabs (round (inject_Z k - half)) == 0) by (rewrite H0; reflexivity).
    unfold Qltb.
    destruct (Qle_bool (round (10 * EPS)) (Qabs (round (inject_Z k - half)))) eqn:E.
    + apply Qle_bool_iff in E. lra.
    + rewrite Hk, Z.even_mul. reflexivity.
  - (* odd exponent: [half] is [k + 1/2] *)
    assert (Hk' : half == inject_Z k + (1 # 2)) by (rewrite Hh; unfold Qeq; simpl; lia).
    assert (Hf : is_double (n # 2)) by (apply half_integers_double; lia).
    pose proof (round_bound (half - EPS) (n # 2) EPS Hf ltac:(lra)) as Ht.
    assert (Hk1 : inject_Z (k + 1) == inject_Z k + 1) by (unfold Qeq; simpl; lia).
    rewrite (ceiling_between (round (half - EPS)) (k + 1)) by lra.
    assert (Hd : is_double (1 # 2)) by (apply half_integers_double; lia).
    assert (H0 : round (inject_Z (k + 1) - half) == 1 # 2).
    { rewrite (round_exact _ (1 # 2) Hd); lra. }
    assert (Habs : Qabs (round (inject_Z (k + 1) - half)) == 1 # 2)
      by (rewrite H0; reflexivity).
    unfold Qltb.
    destruct (Qle_bool (round (10 * EPS)) (Qabs (round (inject_Z (k + 1) - half)))) eqn:E.
    + rewrite Hk, Z.even_add, Z.even_mul. reflexivity.
    + exfalso. apply Bool.not_true_iff_false in E. apply E, Qle_bool_iff. lra.
Qed.

(** C4: with the monotonicity cache still [MT_UNKNOWN], [getMonotonicity]
    returns [MT_CONSTANT] for a constant argument; otherwise, for an even
    exponent [MT_NONMONOTONIC] ([MT_CONSTANT] for exponent 0), for an odd
    positive exponent the argument's monotonicity, for an odd negative one
    [MT_NONMONOTONIC]; the floating-point even test agrees with the parity
    of the exponent, and the node is left unchanged. *)
Theorem getMonotonicity_rule (s : PowerIntClass) (m : MonotonicityType) :
  monotonicity s = MT_UNKNOWN -> is_int (exponent s) ->
  exponent_is_even round EPS (exponent s) = Z.even (exponent s) /\
  getMonotonicity round EPS s m =
    (if decide (m = MT_CONSTANT) then MT_CONSTANT
     else if Z.even (exponent s) then
       (if decide (exponent s = 0%Z) then MT_CONSTANT else MT_NONMONOTONIC)
     else if decide (exponent s > 0)%Z then m else MT_NONMONOTONIC, s).
Proof.
  intros Hu Hn. pose proof (exponent_is_even_parity _ Hn) as Hp.
  split; [exact Hp|].
  unfold getMonotonicity. rewrite Hu, Hp.
  destruct (decide (MT_UNKNOWN <> MT_UNKNOWN)) as [C|_]; [congruence|].
  destruct (decide (m = MT_CONSTANT)); [reflexivity|].
  destruct (Z.even (exponent s)); reflexivity.
Qed.

(** C5: with the curvature cache still [CT_UNKNOWN], [getCurvature] follows
    the rule of the spec (constant argument: constant; even exponent:
    negative gives neither, 0 constant, affine argument convex, else neither;
    odd exponent: 1 keeps the argument's curvature, else neither);
    after [setCurvature c] / [setMonotonicity m'] with a known value the
    getters return that value whatever the argument reports; and two
    successive calls of a getter return the same value. *)
Theorem getCurvature_rule_and_overrides (s : PowerIntClass)
  (cc : CurvatureType) (m : MonotonicityType) :
  is_int (exponent s) ->
  (curvature s = CT_UNKNOWN ->
   fst (getCurvature round EPS s cc) =
     if decide (cc = CT_CONSTANT) then CT_CONSTANT
     else if Z.even (exponent s) then
       (if decide (exponent s < 0)%Z then CT_NEITHER_CONVEX_NOR_CONCAVE
        else if decide (exponent s = 0%Z) then CT_CONSTANT
        else if decide (cc = CT_AFFINE) then CT_CONVEX
        else CT_NEITHER_CONVEX_NOR_CONCAVE)
     else if decide (exponent s = 1%Z) then cc else CT_NEITHER_CONVEX_NOR_CONCAVE) /\
  (forall c, c <> CT_UNKNOWN ->
     fst (getCurvature round EPS (snd (setCurvature s c)) cc) = c) /\
  (forall m', m' <> MT_UNKNOWN ->
     fst (getMonotonicity round EPS (snd (setMonotonicity s m')) m) = m') /\
  (let (v1, s1) := getCurvature round EPS s cc in
   fst (getCurvature round EPS s1 cc) = v1) /\
  (let (v1, s1) := getMonotonicity round EPS s m in
   fst (getMonotonicity round EPS s1 m) = v1).
Proof.
  intros Hn. pose proof (exponent_is_even_parity _ Hn) as Hp.
  assert (Hc : forall s', snd (getCurvature round EPS s' cc) = s').
  { intros s'. unfold getCurvature.
    repeat (case_decide || case_match); reflexivity. }
  assert (Hm : forall s', snd (getMonotonicity round EPS s' m) = s').
  { intros s'. unfold getMonotonicity.
    repeat (case_decide || case_match); reflexivity. }
  split; [|split; [|split; [|split]]].
  - intros Hu. unfold getCurvature. rewrite Hu, Hp.
    destruct (decide (CT_UNKNOWN <> CT_UNKNOWN)) as [C|_]; [congruence|].
    destruct (decide (cc = CT_CONSTANT)); [reflexivity|].
    destruct (Z.even (exponent s)); reflexivity.
  - intros c Hc'. unfold getCurvature, setCurvature; simpl.
    destruct (decide (c <> CT_UNKNOWN)); [reflexivity|contradiction].
  - intros m' Hm'. unfold getMonotonicity, setMonotonicity; simpl.
    destruct (decide (m' <> MT_UNKNOWN)); [reflexivity|contradiction].
  - specialize (Hc s). destruct (getCurvature round EPS s cc) as [v1 s1] eqn:E.
    simpl in Hc. subst s1. rewrite E. reflexivity.
  - specialize (Hm s). destruct (getMonotonicity round EPS s m) as [v1 s1] eqn:E.
    simpl in Hm. subst s1. rewrite E. reflexivity.
Qed.

End RoundToNearest.
Import QInstance.

Lemma exact_round_nearest :
  forall q f, any_double f -> Qabs (exact_round q - q) <= Qabs (f - q).
Proof.
  intros q f _. unfold exact_round. pose proof (Qabs_nonneg (f - q)).
  apply Qabs_Qle_condition. lra.
Qed.

Lemma EPS_acado_range : 0 < EPS_acado <= 1 # 32.
Proof. unfold EPS_acado. split; vm_compute; [reflexivity | discriminate]. Qed.

(** Witness of C4: [Power_Int(x, 3)] with an argument reported
    [MT_NONDECREASING]. *)
Lemma getMonotonicity_rule_witness :
  monotonicity (construct 3) = MT_UNKNOWN /\ is_int (exponent (construct 3)) /\
  exponent_is_even exact_round EPS_acado (exponent (construct 3))
    = Z.even (exponent (construct 3)) /\
  getMonotonicity exact_round EPS_acado (construct 3) MT_NONDECREASING =
    (if decide (MT_NONDECREASING = MT_CONSTANT) then MT_CONSTANT
     else if Z.even (exponent (construct 3)) then
       (if decide (exponent (construct 3) = 0%Z) then MT_CONSTANT else MT_NONMONOTONIC)
     else if decide (exponent (construct 3) > 0)%Z then MT_NONDECREASING
     else MT_NONMONOTONIC, construct 3).
Proof.
  assert (Hi : is_int (exponent (construct 3))) by (unfold is_int, INT_MAX; simpl; lia).
  split; [reflexivity|]. split; [exact Hi|].
  apply (getMonotonicity_rule exact_round any_double EPS_acado exact_round_nearest
           (fun _ _ => I) I EPS_acado_range (construct 3) MT_NONDECREASING);
    [reflexivity | exact Hi].
Defined.

(** Witness of C5: [Power_Int(x, 2)] with an affine argument, overridden by
    [CT_CONCAVE] / [MT_NONINCREASING]. *)
Lemma getCurvature_rule_and_overrides_witness :
  is_int (exponent (construct 2)) /\
  (curvature (construct 2) = CT_UNKNOWN ->
   fst (getCurvature exact_round EPS_acado (construct 2) CT_AFFINE) =
     if decide (CT_AFFINE = CT_CONSTANT) then CT_CONSTANT
     else if Z.even (exponent (construct 2)) then
       (if decide (exponent (construct 2) < 0)%Z then CT_NEITHER_CONVEX_NOR_CONCAVE
        else if decide (exponent (construct 2) = 0%Z) then CT_CONSTANT
        else if decide (CT_AFFINE = CT_AFFINE) then CT_CONVEX
        else CT_NEITHER_CONVEX_NOR_CONCAVE)
     else if decide (exponent (construct 2) = 1%Z) then CT_AFFINE
     else CT_NEITHER_CONVEX_NOR_CONCAVE) /\
  (forall c, c <> CT_UNKNOWN ->
     fst (getCurvature exact_round EPS_acado (snd (setCurvature (construct 2) c)) CT_AFFINE) = c) /\
  (forall m', m' <> MT_UNKNOWN ->
     fst (getMonotonicity exact_round EPS_acado
            (snd (setMonotonicity (construct 2) m')) MT_NONDECREASING) = m') /\
  (let (v1, s1) := getCurvature exact_round EPS_acado (construct 2) CT_AFFINE in
   fst (getCurvature exact_round EPS_acado s1 CT_AFFINE) = v1) /\
  (let (v1, s1) := getMonotonicity exact_round EPS_acado (construct 2) MT_NONDECREASING in
   fst (getMonotonicity exact_round EPS_acado s1 MT_NONDECREASING) = v1).
Proof.
  assert (Hi : is_int (exponent (construct 2))) by (unfold is_int, INT_MAX; simpl; lia).
  split; [exact Hi|].
  apply (getCurvature_rule_and_overrides exact_round any_double EPS_acado
           exact_round_nearest (fun _ _ => I) I EPS_acado_range (construct 2)
           CT_AFFINE MT_NONDECREASING Hi).
Defined.

End ClassifyFacts.

(** ** Proofs about the symbolic part *)
Module SymbolicFacts.
Import Symbolic.

Section Generic.
Context {R : Type} (pow : R -> Z -> R) (asin : R -> R) (Rmul : R -> R -> R)
  (zero : R) (print_double : R -> string).

(** C3: substituting the constant [c] for variable [i] and evaluating at [x]
    gives the value of the original expression at [x] with entry [i] set to
    [c]; [substitute] keeps a [Power_Int] node (with its exponent) and an
    [Asin] node. *)
Theorem substitute_constant_evaluate (e : Expr R) (i : Z) (c : R)
  (ne : NeutralElement) (x : Z -> R) :
  evaluate R pow asin Rmul x (substitute R i (EDoubleConstant c ne) e) =
  evaluate R pow asin Rmul (fun j => if decide (j = i) then c else x j) e /\
  (forall a n, substitute R i (EDoubleConstant c ne) (EPower_Int a n) =
               EPower_Int (substitute R i (EDoubleConstant c ne) a) n) /\
  (forall a, substitute R i (EDoubleConstant c ne) (EAsin a) =
             EAsin (substitute R i (EDoubleConstant c ne) a)).
Proof.
  split; [|split; reflexivity].
  induction e as [vt comp j | v ne' | a IH n | a IH | a IHa b IHb]; simpl.
  - destruct (decide (j = i)); reflexivity.
  - reflexivity.
  - rewrite IH. reflexivity.
  - rewrite IH. reflexivity.
  - rewrite IHa, IHb. reflexivity.
Qed.

(** C8: [Power_Int::print] writes [(arg)] for exponent 1, [((arg)*(arg))]
    for exponent 2 on a bare variable, and otherwise the call
    [pow(arg,n)] wrapped in one more pair of parentheses; [print] is a
    function of the node (a [const] method), it returns no new state. On
    [x = xd[0]]: [(xd[0])], [((xd[0])*(xd[0]))] and [(pow(xd[0],3))]. *)
Theorem print_PowerInt (a : Expr R) (n : Z) :
  print R print_double (EPower_Int a n) =
    (if decide (n = 1) then "(" +:+ print R print_double a +:+ ")"
     else if decide (n = 2 /\ isVariable R a = BT_TRUE) then
       "((" +:+ print R print_double a +:+ ")*(" +:+ print R print_double a +:+ "))"
     else "(pow(" +:+ print R print_double a +:+ "," +:+ pretty n +:+ "))") /\
  print R print_double (EPower_Int (EVariable VT_DIFFERENTIAL_STATE 0 0) 1) = "(xd[0])" /\
  print R print_double (EPower_Int (EVariable VT_DIFFERENTIAL_STATE 0 0) 2)
    = "((xd[0])*(xd[0]))" /\
  print R print_double (EPower_Int (EVariable VT_DIFFERENTIAL_STATE 0 0) 3)
    = "(pow(xd[0],3))".
Proof. split; [reflexivity|]. vm_compute. repeat split. Qed.

(** C10: [isOneOrZero] of a [Power_Int] node is [NE_NEITHER_ONE_NOR_ZERO]
    for every exponent (0 and 1 included), so the folding of [myProd] never
    takes a [Power_Int] factor for a zero or a one: only the other factor
    decides. *)
Theorem isOneOrZero_PowerInt (a b : Expr R) (n : Z) :
  isOneOrZero R (EPower_Int a n) = NE_NEITHER_ONE_NOR_ZERO /\
  myProd R zero (EPower_Int a n) b =
    match isOneOrZero R b with
    | NE_ZERO => EDoubleConstant zero NE_ZERO
    | NE_ONE => EPower_Int a n
    | NE_NEITHER_ONE_NOR_ZERO => EProduct (EPower_Int a n) b
    end /\
  myProd R zero b (EPower_Int a n) =
    match isOneOrZero R b with
    | NE_ZERO => EDoubleConstant zero NE_ZERO
    | NE_ONE => EPower_Int a n
    | NE_NEITHER_ONE_NOR_ZERO => EProduct b (EPower_Int a n)
    end.
Proof.
  split; [reflexivity|].
  unfold myProd; simpl. destruct (isOneOrZero R b); split; reflexivity.
Qed.

End Generic.

(** C2 (code_bug): for exponent 0 the [(dim, varType, component,
    implicit_dep)] overload of [isDependingOn] answers [BT_FALSE], but the
    [VariableType] overload forwards to the argument: [Power_Int(xd[0], 0)]
    is reported depending on [VT_DIFFERENTIAL_STATE]. *)
Theorem isDependingOn_exponent0_overloads_disagree :
  (forall (a : Expr Q) (var : VariableType),
     isDependingOn Q (EPower_Int a 0) var = isDependingOn Q a var) /\
  isDependingOn Q (EPower_Int (EVariable VT_DIFFERENTIAL_STATE 0 0) 0)
    VT_DIFFERENTIAL_STATE = BT_TRUE /\
  isDependingOn_dir Q (EPower_Int (EVariable VT_DIFFERENTIAL_STATE 0 0) 0)
    [(VT_DIFFERENTIAL_STATE, 0)] = BT_FALSE.
Proof. split; [reflexivity|]. split; reflexivity. Qed.

End SymbolicFacts.

(** ** [initDerivative]: the caches are built once *)
Module HeapFacts.
Import Heap.

(** [s'] is [s] with more nodes allocated, and still well formed. *)
Definition grows (s s' : State) : Prop := heap_wf s' /\ heap s ⊆ heap s'.

Lemma grows_trans s1 s2 s3 : grows s1 s2 -> grows s2 s3 -> grows s1 s3.
Proof. intros [_ H12] [W H23]. split; [exact W|]. etrans; eauto. Qed.

Lemma heap_wf_fresh s : heap_wf s -> heap s !! next_ptr s = None.
Proof.
  intros Hk. destruct (heap s !! next_ptr s) as [n|] eqn:E; [|done].
  specialize (Hk _ _ E). simpl in Hk. lia.
Qed.

Lemma heap_wf_in s p n : heap_wf s -> heap s !! p = Some n -> (p < next_ptr s)%N.
Proof. intros Hk E. exact (Hk _ _ E). Qed.

Lemma alloc_grows n s r s' :
  heap_wf s -> alloc n s = (r, s') -> grows s s'.
Proof.
  intros W E. injection E as <- <-. pose proof (heap_wf_fresh s W) as F.
  split; simpl.
  - apply map_Forall_insert_2; [simpl; lia|].
    eapply map_Forall_impl; [exact W|]. intros k x Hlt. simpl in Hlt |- *. lia.
  - apply insert_subseteq. exact F.
Qed.

Lemma grows_refl s : heap_wf s -> grows s s.
Proof. intros W. split; [exact W|reflexivity]. Qed.

Lemma myProd_grows a b s r s' : heap_wf s -> myProd a b s = (r, s') -> grows s s'.
Proof.
  intros W E. unfold myProd in E.
  destruct (isOneOrZero a s), (isOneOrZero b s);
    first [ exact (alloc_grows _ _ _ _ W E)
          | cbn in E; injection E as <- <-; apply grows_refl; exact W ].
Qed.

Lemma myPowerInt_grows a n s r s' : heap_wf s -> myPowerInt a n s = (r, s') -> grows s s'.
Proof.
  intros W E. unfold myPowerInt in E.
  repeat case_decide;
    first [ exact (alloc_grows _ _ _ _ W E)
          | cbn in E; injection E as <- <-; apply grows_refl; exact W ].
Qed.

Lemma convert2TreeProjection_grows a s r s' :
  heap_wf s -> convert2TreeProjection a s = (r, s') -> grows s s'.
Proof.
  intros W E. unfold convert2TreeProjection in E.
  exact (alloc_grows _ _ _ _ W E).
Qed.

Lemma alloc_new_grows e : forall s r s', heap_wf s -> alloc_new e s = (r, s') -> grows s s'.
Proof.
  induction e as [p|v ne|a IHa n|a IHa b IHb|a IHa b IHb|a IHa b IHb];
    intros s r s' W E; simpl in E.
  - injection E as <- <-. apply grows_refl, W.
  - exact (alloc_grows _ _ _ _ W E).
  - destruct (alloc_new a s) as [pa s1] eqn:E1.
    pose proof (IHa _ _ _ W E1) as G1.
    eapply grows_trans; [exact G1|].
    exact (alloc_grows _ _ _ _ (proj1 G1) E).
  - destruct (alloc_new a s) as [pa s1] eqn:E1. pose proof (IHa _ _ _ W E1) as G1.
    destruct (alloc_new b s1) as [pb s2] eqn:E2. pose proof (IHb _ _ _ (proj1 G1) E2) as G2.
    eapply grows_trans; [exact G1|]. eapply grows_trans; [exact G2|].
    exact (alloc_grows _ _ _ _ (proj1 G2) E).
  - destruct (alloc_new a s) as [pa s1] eqn:E1. pose proof (IHa _ _ _ W E1) as G1.
    destruct (alloc_new b s1) as [pb s2] eqn:E2. pose proof (IHb _ _ _ (proj1 G1) E2) as G2.
    eapply grows_trans; [exact G1|]. eapply grows_trans; [exact G2|].
    exact (alloc_grows _ _ _ _ (proj1 G2) E).
  - destruct (alloc_new a s) as [pa s1] eqn:E1. pose proof (IHa _ _ _ W E1) as G1.
    destruct (alloc_new b s1) as [pb s2] eqn:E2. pose proof (IHb _ _ _ (proj1 G1) E2) as G2.
    eapply grows_trans; [exact G1|]. eapply grows_trans; [exact G2|].
    exact (alloc_grows _ _ _ _ (proj1 G2) E).
Qed.

Lemma write_wf p n s :
  heap_wf s -> is_Some (heap s !! p) -> heap_wf (write p n s).
Proof.
  intros W [m Hm]. apply map_Forall_insert_2; [exact (W _ _ Hm)|exact W].
Qed.

Lemma heap_visit p s : heap (visit p s) = heap s.
Proof. reflexivity. Qed.

Lemma wf_visit p s : heap_wf s -> heap_wf (visit p s).
Proof. done. Qed.

(** [s'] keeps the nodes of [s] other than [p], and [p] is still allocated. *)
Definition keeps (p : ptr) (s s' : State) : Prop :=
  heap_wf s' /\ is_Some (heap s' !! p) /\
  forall q n, q <> p -> heap s !! q = Some n -> heap s' !! q = Some n.

Lemma keeps_start p s n : heap_wf s -> heap s !! p = Some n -> keeps p s (visit p s).
Proof. intros W Hp. split; [exact W|]. split; [eexists; exact Hp|]. auto. Qed.

Lemma keeps_grows p s s1 s2 : keeps p s s1 -> grows s1 s2 -> keeps p s s2.
Proof.
  intros (_ & [m Hm] & K) [W S]. split; [exact W|]. split.
  - eexists. eapply lookup_weaken; [exact Hm|exact S].
  - intros q n Hq Hn. eapply lookup_weaken; [exact (K q n Hq Hn)|exact S].
Qed.

Lemma keeps_write p s s1 n : keeps p s s1 -> keeps p s (write p n s1).
Proof.
  intros (W & Hs & K). split; [exact (write_wf p n s1 W Hs)|]. split.
  - eexists. simpl. apply lookup_insert_eq.
  - intros q m Hq Hm. simpl. rewrite lookup_insert_ne by congruence. exact (K q m Hq Hm).
Qed.

(** Advance [K : keeps p s0 cur] over the next allocation of [H]. *)
Ltac keeps_write_in K E :=
  lazymatch type of E with
  | context [write ?p ?n ?c] =>
      lazymatch type of K with
      | keeps p ?s0 c =>
          let K' := fresh "K" in
          pose proof (keeps_write p s0 c n K) as K'; clear K; rename K' into K
      end
  | _ => idtac
  end.

Ltac grows_of W E G :=
  lazymatch type of E with
  | myPowerInt _ _ _ = _ => pose proof (myPowerInt_grows _ _ _ _ _ W E) as G
  | myProd _ _ _ = _ => pose proof (myProd_grows _ _ _ _ _ W E) as G
  | convert2TreeProjection _ _ = _ =>
      pose proof (convert2TreeProjection_grows _ _ _ _ W E) as G
  | alloc_new _ _ = _ => pose proof (alloc_new_grows _ _ _ _ W E) as G
  | alloc ?n _ = _ => pose proof (alloc_grows n _ _ _ W E) as G
  end.

Ltac keeps_step H K :=
  match type of H with
  | context [match ?x with _ => _ end] =>
      let E := fresh "E" in
      destruct x as [? ?] eqn:E;
      keeps_write_in K E;
      let G := fresh "G" in
      grows_of (proj1 K) E G;
      let K' := fresh "K" in
      pose proof (keeps_grows _ _ _ _ K G) as K'; clear K G; rename K' into K
  end.

(** A call keeps the heap well formed and leaves every node whose caches
    are already set untouched. *)
Lemma initDerivative_keeps f :
  forall p s rc s', heap_wf s -> initDerivative f p s = Some (rc, s') ->
  heap_wf s' /\
  forall q n, heap s !! q = Some n -> initialised n = true -> heap s' !! q = Some n.
Proof.
  induction f as [|f IH]; intros p s rc s' W H; [discriminate|].
  cbn [initDerivative] in H. rewrite heap_visit in H.
  destruct (heap s !! p) as [node|] eqn:Hp; [|discriminate].
  pose proof (keeps_start p s node W Hp) as K.
  assert (Done : Some (SUCCESSFUL_RETURN, visit p s) = Some (rc, s') ->
    heap_wf s' /\
    forall q n, heap s !! q = Some n -> initialised n = true -> heap s' !! q = Some n).
  { intros E. injection E as <- <-. split; [exact W|]. intros q n Hq _. exact Hq. }
  assert (Rec : forall a s1, keeps p s s1 -> initialised node = false ->
    initDerivative f a s1 = Some (rc, s') ->
    heap_wf s' /\
    forall q n, heap s !! q = Some n -> initialised n = true -> heap s' !! q = Some n).
  { intros a s1 K1 Hi H1. destruct (IH _ _ _ _ (proj1 K1) H1) as [W' P].
    split; [exact W'|]. intros q m Hq Hm. apply P; [|exact Hm].
    destruct (decide (q = p)) as [->|Hne]; [congruence|].
    exact (proj2 (proj2 K1) q m Hne Hq). }
  assert (Seq : forall a b, match initDerivative f a (visit p s) with
                            | Some (SUCCESSFUL_RETURN, s1) => initDerivative f b s1
                            | r => r
                            end = Some (rc, s') ->
    heap_wf s' /\
    forall q n, heap s !! q = Some n -> initialised n = true -> heap s' !! q = Some n).
  { intros a b H1.
    destruct (initDerivative f a (visit p s)) as [[[|] s1]|] eqn:E1; [| |discriminate].
    - destruct (IH _ _ _ _ (wf_visit p s W) E1) as [W1 P1]. destruct (IH _ _ _ _ W1 H1) as [W2 P2].
      split; [exact W2|]. intros q m Hq Hm. exact (P2 q m (P1 q m Hq Hm) Hm).
    - injection H1 as <- <-. exact (IH _ _ _ _ (wf_visit p s W) E1). }
  destruct node as [vt c|v ne|a n [d|] d2|a [d|] [d2|]|a b|a b|a b|a].
  - exact (Done H).
  - exact (Done H).
  - exact (Done H).
  - repeat keeps_step H K. keeps_write_in K H. exact (Rec _ _ K eq_refl H).
  - exact (Done H).
  - repeat keeps_step H K. keeps_write_in K H. exact (Rec _ _ K eq_refl H).
  - repeat keeps_step H K. keeps_write_in K H. exact (Rec _ _ K eq_refl H).
  - repeat keeps_step H K. keeps_write_in K H. exact (Rec _ _ K eq_refl H).
  - exact (Seq _ _ H).
  - exact (Seq _ _ H).
  - exact (Seq _ _ H).
  - exact (IH _ _ _ _ (wf_visit p s W) H).
Qed.

(** On a node whose caches are set, a call only enters the node. *)
Lemma initDerivative_initialised g p s n :
  heap s !! p = Some n -> initialised n = true ->
  initDerivative (S g) p s = Some (SUCCESSFUL_RETURN, visit p s).
Proof.
  intros Hp Hi. cbn [initDerivative]. rewrite heap_visit, Hp.
  destruct n as [vt c|v ne|a k [d|] d2|a [d|] [d2|]|a b|a b|a b|a];
    try discriminate; reflexivity.
Qed.

(** The end of a first call on an uninitialised node: both caches of the
    node are set, then the argument is initialised. *)
Ltac first_call K H :=
  repeat keeps_step H K; keeps_write_in K H;
  lazymatch type of H with
  | initDerivative ?f _ (write ?p ?N ?c) = Some (?rc, ?s1) =>
      destruct (initDerivative_keeps _ _ _ _ _ (proj1 K) H) as [W1 P];
      assert (HN : heap (write p N c) !! p = Some N) by apply lookup_insert_eq;
      exists N; do 2 eexists;
      split; [exact (P p N HN eq_refl)|];
      split; [reflexivity|];
      split; [exact (initDerivative_initialised _ _ _ N (P p N HN eq_refl) eq_refl)|];
      split; [discriminate|];
      intros _; exists (write p N c); split; [exact HN|]; split; [exact (proj1 K)|exact H]
  end.

(** C6: [initDerivative] on a [Power_Int] or [Asin] node [p] (whose
    [derivative] is not set without its [derivative2]).  After a first call
    the node at [p] has both caches set and the same argument; a second
    call returns [SUCCESSFUL_RETURN] at once, in a state where only the
    visit of [p] is logged: the same heap (the caches are the very same
    nodes), no node allocated, the argument not entered.  If the caches
    were set before the first call, that call was already such an immediate
    return; otherwise it set both caches and then ended with the argument's
    [initDerivative], whose result it returns. *)
Theorem initDerivative_idempotent f g p s rc s1 node a d d2 :
  heap_wf s -> heap s !! p = Some node ->
  cached_node node = Some (a, d, d2) -> pint_ok node = true ->
  initDerivative (S f) p s = Some (rc, s1) ->
  exists node1 e e2,
    heap s1 !! p = Some node1 /\
    cached_node node1 = Some (a, Some e, Some e2) /\
    initDerivative (S g) p s1 = Some (SUCCESSFUL_RETURN, visit p s1) /\
    (initialised node = true -> rc = SUCCESSFUL_RETURN /\ s1 = visit p s) /\
    (initialised node = false ->
     exists s2, heap s2 !! p = Some node1 /\ heap_wf s2 /\
                initDerivative f a s2 = Some (rc, s1)).
Proof.
  intros W Hp Hc Hok H.
  cbn [initDerivative] in H. rewrite heap_visit, Hp in H.
  pose proof (keeps_start p s node W Hp) as K.
  destruct node as [vt c|v ne|a' n [d0|] d0'|a' [d0|] [d0'|]|a1 b1|a1 b1|a1 b1|a1];
    try discriminate Hc; injection Hc as <- <- <-.
  - destruct d0' as [e2|]; [|discriminate Hok].
    injection H as <- <-. exists (HPower_Int a' n (Some d0) (Some e2)), d0, e2.
    split; [exact Hp|]. split; [reflexivity|].
    split; [exact (initDerivative_initialised g p (visit p s) _ Hp eq_refl)|].
    split; [auto|discriminate].
  - first_call K H.
  - injection H as <- <-. exists (HAsin a' (Some d0) (Some d0')), d0, d0'.
    split; [exact Hp|]. split; [reflexivity|].
    split; [exact (initDerivative_initialised g p (visit p s) _ Hp eq_refl)|].
    split; [auto|discriminate].
  - first_call K H.
  - first_call K H.
  - first_call K H.
Qed.

Import QInstance.

Lemma initDerivative_idempotent_witness :
  heap_wf heap_example /\
  heap heap_example !! 1%N = Some (HPower_Int 0 3 None None) /\
  initDerivative 2 1 heap_example = Some (SUCCESSFUL_RETURN, heap_after) /\
  exists node1 e e2,
    heap heap_after !! 1%N = Some node1 /\
    cached_node node1 = Some (0%N, Some e, Some e2) /\
    initDerivative 1 1 heap_after = Some (SUCCESSFUL_RETURN, visit 1 heap_after) /\
    (initialised (HPower_Int 0 3 None None) = true ->
     SUCCESSFUL_RETURN = SUCCESSFUL_RETURN /\ heap_after = visit 1 heap_example) /\
    (initialised (HPower_Int 0 3 None None) = false ->
     exists s2, heap s2 !! 1%N = Some node1 /\ heap_wf s2 /\
                initDerivative 1 0 s2 = Some (SUCCESSFUL_RETURN, heap_after)).
Proof.
  assert (W : heap_wf heap_example).
  { unfold heap_wf, heap_example; simpl.
    apply map_Forall_insert_2; [simpl; lia|].
    apply map_Forall_insert_2; [simpl; lia|]. apply map_Forall_empty. }
  assert (Hp : heap heap_example !! 1%N = Some (HPower_Int 0 3 None None))
    by (vm_compute; reflexivity).
  assert (H : initDerivative 2 1 heap_example = Some (SUCCESSFUL_RETURN, heap_after))
    by (vm_compute; reflexivity).
  split; [exact W|]. split; [exact Hp|]. split; [exact H|].
  exact (initDerivative_idempotent 1 0 1 heap_example SUCCESSFUL_RETURN heap_after
           _ 0 None None W Hp eq_refl eq_refl H).
Defined.

End HeapFacts.

(** ** More of the numeric part: copies, [clearBuffer], the sweeps after [evaluate] *)
Module NumericMore.
Import Numeric NumericFacts.

Section Node.
Context {R : Type} (pow : R -> Z -> R) (Rmul Radd : R -> R -> R) (RofZ : Z -> R)
  (uninit zero : R) {CS X : Type}
  (child_evaluate : CS -> Z -> X -> returnValue * R * CS)
  (child_AD_forward5 : CS -> Z -> X -> X -> returnValue * R * R * CS)
  (child_AD_forward : CS -> Z -> X -> returnValue * R * CS)
  (child_AD_backward : CS -> Z -> R -> returnValue * CS).

Lemma grow_lengths (s : PowerIntBuf R) (number : Z) :
  buf_wf R s ->
  length (argument_result R (grow R uninit s number)) = Z.to_nat (bufferSize R (grow R uninit s number)) /\
  length (dargument_result R (grow R uninit s number)) = Z.to_nat (bufferSize R (grow R uninit s number)).
Proof.
  intros (H0 & Ha & Hd). unfold grow.
  destruct (number >=? bufferSize R s); simpl; [|done].
  rewrite !length_realloc. done.
Qed.

Lemma grow_small (s : PowerIntBuf R) (number : Z) :
  number < bufferSize R s -> grow R uninit s number = s.
Proof.
  intros H. unfold grow. destruct (number >=? bufferSize R s) eqn:E; [|done].
  apply Z.geb_le in E. lia.
Qed.

Lemma buf_set_Some (l l' : list R) (i : Z) (v : R) :
  buf_set R l i v = Some l' ->
  0 <= i < Z.of_nat (length l) /\ l' = <[Z.to_nat i := v]> l.
Proof.
  unfold buf_set. destruct (0 <=? i) eqn:E1; [|discriminate].
  destruct (i <? Z.of_nat (length l)) eqn:E2; [|discriminate].
  intros E. injection E as <-. apply Z.leb_le in E1. apply Z.ltb_lt in E2. done.
Qed.

(** A run of [evaluate] that ends leaves a node whose buffers hold
    [bufferSize] cells, slot [number] among them, holding the value the
    argument wrote. *)
Lemma evaluate_Some (s : PowerIntBuf R) cs number x rc r s1 cs1 :
  buf_wf R s ->
  evaluate R pow uninit CS X child_evaluate s cs number x = Some (rc, r, s1, cs1) ->
  let '(_, v, _) := child_evaluate cs number x in
  buf_wf R s1 /\ 0 <= number < bufferSize R s1 /\ exponent R s1 = exponent R s /\
  buf_get R (argument_result R s1) number = Some v.
Proof.
  intros W E. destruct (grow_lengths s number W) as [La Ld].
  unfold evaluate in E.
  destruct (child_evaluate cs number x) as [[rc0 v] cs0].
  destruct (buf_set R _ number v) as [ar|] eqn:Es; [|discriminate]. simpl in E.
  destruct (buf_set_Some _ _ _ _ Es) as [Hn ->].
  rewrite buf_get_set_eq in E by done. simpl in E.
  injection E as <- <- <- <-. simpl.
  assert (Hexp : exponent R (grow R uninit s number) = exponent R s).
  { unfold grow. destruct (number >=? bufferSize R s); done. }
  split; [|split; [lia|split; [exact Hexp|]]].
  - unfold buf_wf; simpl. rewrite length_insert. lia.
  - apply buf_get_set_eq. done.
Qed.

(** [clearBuffer] on a node whose buffers hold [bufferSize >= 1] cells:
    one cell is left in each buffer, the value in slot 0 of both buffers is
    kept, the exponent too, and a second [clearBuffer] changes nothing. *)
Theorem clearBuffer_keeps_slot0 (s : PowerIntBuf R) :
  buf_wf R s -> 1 <= bufferSize R s ->
  let s' := clearBuffer R uninit s in
  buf_wf R s' /\ bufferSize R s' = 1 /\ exponent R s' = exponent R s /\
  buf_get R (argument_result R s') 0 = buf_get R (argument_result R s) 0 /\
  buf_get R (dargument_result R s') 0 = buf_get R (dargument_result R s) 0 /\
  clearBuffer R uninit s' = s'.
Proof.
  intros (H0 & Ha & Hd) H1. simpl. unfold clearBuffer.
  destruct (bufferSize R s >? 1) eqn:E; simpl.
  - apply Z.gtb_lt in E.
    split; [unfold buf_wf; simpl; rewrite !length_realloc; done|].
    split; [done|]. split; [done|].
    split; [apply buf_get_realloc; lia|].
    split; [apply buf_get_realloc; lia|]. done.
  - pose proof E as E'. rewrite Z.gtb_ltb in E'. apply Z.ltb_ge in E'.
    split; [done|]. split; [lia|]. split; [done|]. split; [done|]. split; [done|].
    rewrite E. done.
Qed.

(** [evaluate] at a slot [0 <= number < bufferSize] keeps [bufferSize], the
    exponent and [dargument_result], stores the argument's value [v] in
    [argument_result[number]] only, and returns [pow(v, exponent)]. *)
Theorem evaluate_in_bounds (s : PowerIntBuf R) cs number x rc0 v cs1 :
  buf_wf R s -> 0 <= number < bufferSize R s ->
  child_evaluate cs number x = (rc0, v, cs1) ->
  evaluate R pow uninit CS X child_evaluate s cs number x =
  Some (SUCCESSFUL_RETURN, pow v (exponent R s),
        mkBuf R (exponent R s) (<[Z.to_nat number := v]> (argument_result R s))
              (dargument_result R s) (bufferSize R s), cs1).
Proof.
  intros (H0 & Ha & Hd) Hn Ec. unfold evaluate.
  rewrite grow_small by lia. rewrite Ec.
  rewrite buf_set_in by lia. simpl.
  rewrite buf_get_set_eq by lia. reflexivity.
Qed.

(** At a negative slot, [evaluate] and the five-argument [AD_forward] do not
    grow the buffers (their growth step [grow] leaves the node as it is)
    and write out of them. *)
Theorem negative_slot_out_of_bounds (s : PowerIntBuf R) cs number x seed :
  buf_wf R s -> number < 0 ->
  grow R uninit s number = s /\
  evaluate R pow uninit CS X child_evaluate s cs number x = None /\
  AD_forward5 R pow Rmul RofZ uninit CS X child_AD_forward5 s cs number x seed = None.
Proof.
  intros (H0 & Ha & Hd) Hn. split; [apply grow_small; lia|]. unfold evaluate, AD_forward5.
  rewrite !grow_small by lia. split.
  - destruct (child_evaluate cs number x) as [[rc0 v] cs1].
    rewrite buf_set_out by lia. reflexivity.
  - destruct (child_AD_forward5 cs number x seed) as [[[rc0 v] dv] cs1].
    rewrite !buf_set_out by lia. reflexivity.
Qed.

(** The five-argument [AD_forward] at a slot [number >= bufferSize >= 1],
    [bufferSize + number] an [int], grows both buffers as [evaluate] does
    (to [bufferSize + number] cells, old slots kept), stores the argument's
    value [v] and derivative [dv] in slot [number], and returns
    [f = pow(v, exponent)] and [df = exponent*pow(v, exponent-1)*dv]. *)
Theorem AD_forward5_grows_buffers (s : PowerIntBuf R) cs number x seed rc0 v dv cs1 :
  buf_wf R s -> 1 <= bufferSize R s <= number ->
  bufferSize R s + number <= INT_MAX ->
  child_AD_forward5 cs number x seed = (rc0, v, dv, cs1) ->
  exists s',
    AD_forward5 R pow Rmul RofZ uninit CS X child_AD_forward5 s cs number x seed =
    Some (SUCCESSFUL_RETURN, pow v (exponent R s),
          Rmul (Rmul (RofZ (exponent R s)) (pow v (int_wrap (exponent R s - 1)))) dv,
          s', cs1) /\
    bufferSize R s' = bufferSize R s + number /\ buf_wf R s' /\
    exponent R s' = exponent R s /\
    buf_get R (argument_result R s') number = Some v /\
    buf_get R (dargument_result R s') number = Some dv /\
    (forall j, 0 <= j < bufferSize R s ->
       buf_get R (argument_result R s') j = buf_get R (argument_result R s) j /\
       buf_get R (dargument_result R s') j = buf_get R (dargument_result R s) j).
Proof.
  intros (H0 & Ha & Hd) [H1 H2] H3 Ec.
  assert (Hint : is_int (bufferSize R s + number)) by (unfold is_int, INT_MAX in *; lia).
  unfold AD_forward5. rewrite grow_big by (try done; lia). simpl. rewrite Ec.
  rewrite buf_set_in by (rewrite length_realloc; lia). simpl.
  rewrite buf_set_in by (rewrite length_realloc; lia). simpl.
  rewrite !buf_get_set_eq by (rewrite length_realloc; lia). simpl.
  eexists. split; [reflexivity|]. simpl.
  split; [done|].
  split; [unfold buf_wf; simpl; rewrite !length_insert, !length_realloc; lia|].
  split; [done|].
  split; [apply buf_get_set_eq; rewrite length_realloc; lia|].
  split; [apply buf_get_set_eq; rewrite length_realloc; lia|].
  intros j Hj. rewrite !buf_get_set_ne by lia.
  rewrite !buf_get_realloc by lia. done.
Qed.

(** The five-argument [AD_forward] at a slot [0 <= number < bufferSize]
    keeps [bufferSize], writes only slot [number] of the two buffers (the
    argument's value [v] and derivative [dv]), and returns
    [f = pow(v, exponent)] and [df = exponent*pow(v, exponent-1)*dv]. *)
Theorem AD_forward5_in_bounds (s : PowerIntBuf R) cs number x seed rc0 v dv cs1 :
  buf_wf R s -> 0 <= number < bufferSize R s ->
  child_AD_forward5 cs number x seed = (rc0, v, dv, cs1) ->
  AD_forward5 R pow Rmul RofZ uninit CS X child_AD_forward5 s cs number x seed =
  Some (SUCCESSFUL_RETURN, pow v (exponent R s),
        Rmul (Rmul (RofZ (exponent R s)) (pow v (int_wrap (exponent R s - 1)))) dv,
        mkBuf R (exponent R s) (<[Z.to_nat number := v]> (argument_result R s))
              (<[Z.to_nat number := dv]> (dargument_result R s)) (bufferSize R s), cs1).
Proof.
  intros (H0 & Ha & Hd) Hn Ec. unfold AD_forward5.
  rewrite grow_small by lia. rewrite Ec.
  rewrite buf_set_in by lia. simpl. rewrite buf_set_in by lia. simpl.
  rewrite !buf_get_set_eq by lia. reflexivity.
Qed.

(** After a run of [evaluate] at slot [number] (any slot at which it ends),
    the seed form of [AD_forward] and [AD_backward] at that slot stay in the
    buffers and use the value [v] that [evaluate] buffered: [AD_forward]
    returns [exponent*pow(v, exponent-1)*dv] for the argument's derivative
    [dv], and [AD_backward] hands [exponent*pow(v, exponent-1)*seed] to the
    argument and returns the argument's code. *)
Theorem evaluate_then_sweeps (s : PowerIntBuf R) cs number x rc r s1 cs1
  rc0 v cs0 seed rc1 dv cs2 bseed :
  buf_wf R s ->
  evaluate R pow uninit CS X child_evaluate s cs number x = Some (rc, r, s1, cs1) ->
  child_evaluate cs number x = (rc0, v, cs0) ->
  child_AD_forward cs1 number seed = (rc1, dv, cs2) ->
  let e := exponent R s in
  let nn := Rmul (RofZ e) (pow v (int_wrap (e - 1))) in
  AD_forward R pow Rmul RofZ CS X child_AD_forward s1 cs1 number seed =
  Some (SUCCESSFUL_RETURN, Rmul nn dv,
        mkBuf R e (argument_result R s1) (<[Z.to_nat number := dv]> (dargument_result R s1))
              (bufferSize R s1), cs2) /\
  AD_backward R pow Rmul RofZ CS child_AD_backward s1 cs1 number bseed =
  Some (fst (child_AD_backward cs1 number (Rmul nn bseed)), s1,
        snd (child_AD_backward cs1 number (Rmul nn bseed))).
Proof.
  intros W E Ec Ef. pose proof (evaluate_Some s cs number x rc r s1 cs1 W E) as P.
  rewrite Ec in P. destruct P as ((H0 & Ha & Hd) & Hn & He & Hv).
  simpl. split.
  - unfold AD_forward. rewrite Ef. rewrite buf_set_in by lia. simpl.
    rewrite Hv. simpl. rewrite buf_get_set_eq by lia. simpl. rewrite He. reflexivity.
  - unfold AD_backward. rewrite Hv. simpl. rewrite He.
    destruct (child_AD_backward _ _ _). reflexivity.
Qed.

Lemma copy_loop_spec (arg : PowerIntBuf R) (fuel : nat) :
  forall (k : nat) (ar dar : list R),
  length (argument_result R arg) = length ar ->
  length (dargument_result R arg) = length dar ->
  length ar = (k + fuel)%nat -> length dar = (k + fuel)%nat ->
  exists ar' dar',
    copy_loop R arg ar dar (Z.of_nat k) fuel = Some (ar', dar') /\
    length ar' = length ar /\ length dar' = length dar /\
    (forall i, (i < k)%nat -> ar' !! i = ar !! i /\ dar' !! i = dar !! i) /\
    (forall i, (k <= i)%nat ->
       ar' !! i = argument_result R arg !! i /\ dar' !! i = dargument_result R arg !! i).
Proof.
  induction fuel as [|f IH]; intros k ar dar La Ld Lk Lk'.
  - exists ar, dar. split; [reflexivity|]. split; [done|]. split; [done|].
    split; [intros; done|]. intros i Hi.
    rewrite (lookup_ge_None_2 ar i), (lookup_ge_None_2 dar i),
      (lookup_ge_None_2 (argument_result R arg) i),
      (lookup_ge_None_2 (dargument_result R arg) i) by lia.
    done.
  - simpl.
    rewrite (buf_get_in (argument_result R arg)) by lia.
    destruct (lookup_lt_is_Some_2 (argument_result R arg) k)
      as [v Hv]; [lia|]. rewrite Nat2Z.id, Hv. simpl.
    rewrite buf_set_in by lia. simpl.
    rewrite (buf_get_in (dargument_result R arg)) by lia.
    destruct (lookup_lt_is_Some_2 (dargument_result R arg) k)
      as [dv Hdv]; [lia|]. rewrite Nat2Z.id, Hdv. simpl.
    rewrite buf_set_in by lia. simpl. rewrite Nat2Z.id.
    replace (Z.of_nat k + 1) with (Z.of_nat (S k)) by lia.
    destruct (IH (S k) (<[k:=v]> ar) (<[k:=dv]> dar)) as (ar' & dar' & E & L1 & L2 & P1 & P2);
      [rewrite length_insert; done|rewrite length_insert; done
      |rewrite length_insert; lia|rewrite length_insert; lia|].
    exists ar', dar'. split; [exact E|].
    rewrite length_insert in L1, L2. split; [done|]. split; [done|]. split.
    + intros i Hi. destruct (P1 i ltac:(lia)) as [A B].
      rewrite A, B, !list_lookup_insert_ne by lia. done.
    + intros i Hi. destruct (decide (i = k)) as [->|Hne].
      * destruct (P1 k ltac:(lia)) as [A B]. rewrite A, B, !list_lookup_insert_eq by lia.
        done.
      * apply P2. lia.
Qed.

Lemma copy_construct_eq (s : PowerIntBuf R) :
  buf_wf R s -> copy_construct R zero s = Some s.
Proof.
  intros (H0 & Ha & Hd). unfold copy_construct, calloc.
  destruct (copy_loop_spec s (Z.to_nat (bufferSize R s)) 0
              (replicate (Z.to_nat (bufferSize R s)) zero)
              (replicate (Z.to_nat (bufferSize R s)) zero))
    as (ar' & dar' & E & L1 & L2 & _ & P2);
    [rewrite length_replicate; done|rewrite length_replicate; done
    |rewrite length_replicate; lia|rewrite length_replicate; lia|].
  change (Z.of_nat 0) with 0 in E. rewrite E. destruct s as [e ar dar bs]. simpl in *. f_equal. f_equal.
  - apply list_eq. intros i. apply (P2 i). lia.
  - apply list_eq. intros i. apply (P2 i). lia.
Qed.

(** The copy constructor reproduces a node whose buffers hold [bufferSize]
    cells: the same exponent, [bufferSize] and the same value in every
    cell of both buffers. *)
Theorem copy_construct_copies (s : PowerIntBuf R) :
  buf_wf R s -> copy_construct R zero s = Some s.
Proof. exact (copy_construct_eq s). Qed.

(** [operator=] from another node [t] whose buffers hold [bufferSize] cells
    copies the exponent and [bufferSize] but not the buffered values: both
    buffers of the result hold [bufferSize] zeros. So the result differs
    from the copy constructor's as soon as a cell of either buffer of [t]
    is not zero. Self-assignment leaves the node as it is. *)
Theorem assign_zeroes_buffers (s t : PowerIntBuf R) :
  buf_wf R t ->
  assign R zero true s s = s /\
  (let a := assign R zero false s t in
   buf_wf R a /\ exponent R a = exponent R t /\ bufferSize R a = bufferSize R t /\
   (forall j, 0 <= j < bufferSize R t ->
      buf_get R (argument_result R a) j = Some zero /\
      buf_get R (dargument_result R a) j = Some zero) /\
   (forall j v, buf_get R (argument_result R t) j = Some v \/
                buf_get R (dargument_result R t) j = Some v ->
      v <> zero -> copy_construct R zero t <> Some a)).
Proof.
  intros W. split; [reflexivity|]. simpl.
  pose proof W as (H0 & Ha & Hd).
  split; [unfold buf_wf, calloc; simpl; rewrite !length_replicate; lia|].
  split; [done|]. split; [done|].
  assert (Zc : forall j v, buf_get R (calloc R zero (bufferSize R t)) j = Some v -> v = zero).
  { intros j v Hv. unfold buf_get, calloc in Hv.
    destruct (_ && _); [|discriminate]. apply lookup_replicate in Hv. exact (proj1 Hv). }
  split.
  - intros j Hj.
    assert (Z0 : buf_get R (calloc R zero (bufferSize R t)) j = Some zero).
    { unfold calloc. rewrite buf_get_in by (rewrite length_replicate; lia).
      apply lookup_replicate_2. lia. }
    split; exact Z0.
  - intros j v Hv Hne. rewrite copy_construct_eq by exact W. intros Eq.
    injection Eq as Ea. rewrite Ea in Hv. simpl in Hv.
    destruct Hv as [Hv|Hv]; exact (Hne (Zc _ _ Hv)).
Qed.

End Node.

End NumericMore.

(** ** Witnesses of the numeric properties on [Power_Int(x, 3)] *)
Module NumericMoreWitnesses.
Import Numeric NumericFacts NumericMore QInstance.

Lemma node_wide_wf : buf_wf Q node_wide.
Proof. unfold buf_wf; simpl; lia. Qed.

Lemma node3_wf : buf_wf Q node3.
Proof. unfold buf_wf; simpl; lia. Qed.

Lemma clearBuffer_keeps_slot0_witness :
  buf_wf Q node_wide /\ 1 <= bufferSize Q node_wide /\
  (let s' := clearBuffer Q 0%Q node_wide in
   buf_wf Q s' /\ bufferSize Q s' = 1 /\ exponent Q s' = exponent Q node_wide /\
   buf_get Q (argument_result Q s') 0 = buf_get Q (argument_result Q node_wide) 0 /\
   buf_get Q (dargument_result Q s') 0 = buf_get Q (dargument_result Q node_wide) 0 /\
   clearBuffer Q 0%Q s' = s').
Proof.
  split; [exact node_wide_wf|]. split; [simpl; lia|].
  exact (clearBuffer_keeps_slot0 0%Q node_wide node_wide_wf ltac:(simpl; lia)).
Defined.

Lemma evaluate_in_bounds_witness :
  buf_wf Q node3 /\ 0 <= 0 < bufferSize Q node3 /\
  var0_evaluate tt 0 x2 = (SUCCESSFUL_RETURN, 2%Q, tt) /\
  evaluate Q Qpower 0%Q unit (Z -> Q) var0_evaluate node3 tt 0 x2 =
  Some (SUCCESSFUL_RETURN, Qpower 2 (exponent Q node3),
        mkBuf Q (exponent Q node3) (<[Z.to_nat 0 := 2%Q]> (argument_result Q node3))
              (dargument_result Q node3) (bufferSize Q node3), tt).
Proof.
  split; [exact node3_wf|]. split; [simpl; lia|]. split; [reflexivity|].
  exact (evaluate_in_bounds Qpower 0%Q var0_evaluate node3 tt 0 x2 SUCCESSFUL_RETURN 2%Q tt
           node3_wf ltac:(simpl; lia) eq_refl).
Defined.

Lemma negative_slot_out_of_bounds_witness :
  buf_wf Q node3 /\ -1 < 0 /\
  grow Q 0%Q node3 (-1) = node3 /\
  evaluate Q Qpower 0%Q unit (Z -> Q) var0_evaluate node3 tt (-1) x2 = None /\
  AD_forward5 Q Qpower Qmult inject_Z 0%Q unit (Z -> Q) var0_AD_forward5 node3 tt (-1) x2 x2
    = None.
Proof.
  split; [exact node3_wf|]. split; [lia|].
  exact (negative_slot_out_of_bounds Qpower Qmult inject_Z 0%Q var0_evaluate var0_AD_forward5
           node3 tt (-1) x2 x2 node3_wf ltac:(lia)).
Defined.

Lemma AD_forward5_grows_buffers_witness :
  buf_wf Q node3 /\ 1 <= bufferSize Q node3 <= 5 /\ bufferSize Q node3 + 5 <= INT_MAX /\
  var0_AD_forward5 tt 5 x2 x2 = (SUCCESSFUL_RETURN, 2%Q, 2%Q, tt) /\
  exists s',
    AD_forward5 Q Qpower Qmult inject_Z 0%Q unit (Z -> Q) var0_AD_forward5 node3 tt 5 x2 x2 =
    Some (SUCCESSFUL_RETURN, Qpower 2 (exponent Q node3),
          Qmult (Qmult (inject_Z (exponent Q node3)) (Qpower 2 (int_wrap (exponent Q node3 - 1))))
                2, s', tt) /\
    bufferSize Q s' = bufferSize Q node3 + 5 /\ buf_wf Q s' /\
    exponent Q s' = exponent Q node3 /\
    buf_get Q (argument_result Q s') 5 = Some 2%Q /\
    buf_get Q (dargument_result Q s') 5 = Some 2%Q /\
    (forall j, 0 <= j < bufferSize Q node3 ->
       buf_get Q (argument_result Q s') j = buf_get Q (argument_result Q node3) j /\
       buf_get Q (dargument_result Q s') j = buf_get Q (dargument_result Q node3) j).
Proof.
  split; [exact node3_wf|]. split; [simpl; lia|]. split; [unfold INT_MAX; simpl; lia|].
  split; [reflexivity|].
  exact (AD_forward5_grows_buffers Qpower Qmult inject_Z 0%Q var0_AD_forward5 node3 tt 5 x2 x2
           SUCCESSFUL_RETURN 2%Q 2%Q tt node3_wf ltac:(simpl; lia)
           ltac:(unfold INT_MAX; simpl; lia) eq_refl).
Defined.

Lemma AD_forward5_in_bounds_witness :
  buf_wf Q node3 /\ 0 <= 0 < bufferSize Q node3 /\
  var0_AD_forward5 tt 0 x2 x2 = (SUCCESSFUL_RETURN, 2%Q, 2%Q, tt) /\
  AD_forward5 Q Qpower Qmult inject_Z 0%Q unit (Z -> Q) var0_AD_forward5 node3 tt 0 x2 x2 =
  Some (SUCCESSFUL_RETURN, Qpower 2 (exponent Q node3),
        Qmult (Qmult (inject_Z (exponent Q node3)) (Qpower 2 (int_wrap (exponent Q node3 - 1)))) 2,
        mkBuf Q (exponent Q node3) (<[Z.to_nat 0 := 2%Q]> (argument_result Q node3))
              (<[Z.to_nat 0 := 2%Q]> (dargument_result Q node3)) (bufferSize Q node3), tt).
Proof.
  split; [exact node3_wf|]. split; [simpl; lia|]. split; [reflexivity|].
  exact (AD_forward5_in_bounds Qpower Qmult inject_Z 0%Q var0_AD_forward5 node3 tt 0 x2 x2
           SUCCESSFUL_RETURN 2%Q 2%Q tt node3_wf ltac:(simpl; lia) eq_refl).
Defined.

Lemma evaluate_then_sweeps_witness :
  buf_wf Q node3 /\
  evaluate Q Qpower 0%Q unit (Z -> Q) var0_evaluate node3 tt 5 x2 =
    Some (SUCCESSFUL_RETURN, 8%Q, node3_after5, tt) /\
  var0_evaluate tt 5 x2 = (SUCCESSFUL_RETURN, 2%Q, tt) /\
  var0_AD_forward tt 5 x2 = (SUCCESSFUL_RETURN, 2%Q, tt) /\
  (let e := exponent Q node3 in
   let nn := Qmult (inject_Z e) (Qpower 2 (int_wrap (e - 1))) in
   AD_forward Q Qpower Qmult inject_Z unit (Z -> Q) var0_AD_forward node3_after5 tt 5 x2 =
   Some (SUCCESSFUL_RETURN, Qmult nn 2,
         mkBuf Q e (argument_result Q node3_after5)
               (<[Z.to_nat 5 := 2%Q]> (dargument_result Q node3_after5))
               (bufferSize Q node3_after5), tt) /\
   AD_backward Q Qpower Qmult inject_Z unit var0_AD_backward node3_after5 tt 5 1%Q =
   Some (fst (var0_AD_backward tt 5 (Qmult nn 1)), node3_after5,
         snd (var0_AD_backward tt 5 (Qmult nn 1)))).
Proof.
  assert (E : evaluate Q Qpower 0%Q unit (Z -> Q) var0_evaluate node3 tt 5 x2 =
              Some (SUCCESSFUL_RETURN, 8%Q, node3_after5, tt)) by (vm_compute; reflexivity).
  split; [exact node3_wf|]. split; [exact E|]. split; [reflexivity|]. split; [reflexivity|].
  exact (evaluate_then_sweeps Qpower Qmult inject_Z 0%Q var0_evaluate var0_AD_forward
           var0_AD_backward node3 tt 5 x2 SUCCESSFUL_RETURN 8%Q node3_after5 tt
           SUCCESSFUL_RETURN 2%Q tt x2 SUCCESSFUL_RETURN 2%Q tt 1%Q node3_wf E eq_refl eq_refl).
Defined.

Lemma copy_construct_copies_witness :
  buf_wf Q node_wide /\ copy_construct Q 0%Q node_wide = Some node_wide.
Proof.
  split; [exact node_wide_wf|]. exact (copy_construct_copies 0%Q node_wide node_wide_wf).
Defined.

Lemma assign_zeroes_buffers_witness :
  buf_wf Q node_wide /\
  assign Q 0%Q true node3 node3 = node3 /\
  (let a := assign Q 0%Q false node3 node_wide in
   buf_wf Q a /\ exponent Q a = exponent Q node_wide /\
   bufferSize Q a = bufferSize Q node_wide /\
   (forall j, 0 <= j < bufferSize Q node_wide ->
      buf_get Q (argument_result Q a) j = Some 0%Q /\
      buf_get Q (dargument_result Q a) j = Some 0%Q) /\
   (forall j v, buf_get Q (argument_result Q node_wide) j = Some v \/
                buf_get Q (dargument_result Q node_wide) j = Some v ->
      v <> 0%Q -> copy_construct Q 0%Q node_wide <> Some a)).
Proof.
  split; [exact node_wide_wf|]. exact (assign_zeroes_buffers 0%Q node3 node_wide node_wide_wf).
Defined.

End NumericMoreWitnesses.

(** ** Further properties of the classification queries and of [dAsin] *)
Module ClassifyMore.
Import Classify.

(** [getMonotonicity] and [getCurvature] never invent [UNKNOWN]: whatever
    [round] and [EPS] are, an [UNKNOWN] answer comes only from an [UNKNOWN]
    cache and an [UNKNOWN] argument, through the odd branch ([exponent > 0]
    resp. [exponent == 1]) that forwards the argument's answer. *)
Theorem unknown_only_from_argument round EPS s m cc :
  (fst (getMonotonicity round EPS s m) = MT_UNKNOWN ->
   monotonicity s = MT_UNKNOWN /\ m = MT_UNKNOWN /\ exponent s > 0) /\
  (fst (getCurvature round EPS s cc) = CT_UNKNOWN ->
   curvature s = CT_UNKNOWN /\ cc = CT_UNKNOWN /\ exponent s = 1).
Proof.
  unfold getMonotonicity, getCurvature. split.
  - destruct (decide (monotonicity s <> MT_UNKNOWN)) as [Hc|Hc]; simpl.
    { intros H. congruence. }
    destruct (decide (m = MT_CONSTANT)) as [Hm|Hm]; simpl; [discriminate|].
    destruct (exponent_is_even round EPS (exponent s)); simpl.
    + destruct (decide (exponent s = 0)); discriminate.
    + destruct (decide (exponent s > 0)) as [Hp|Hp]; [|discriminate].
      intros ->. repeat split; [|assumption].
      by apply dec_stable.
  - destruct (decide (curvature s <> CT_UNKNOWN)) as [Hc|Hc]; simpl.
    { intros H. congruence. }
    destruct (decide (cc = CT_CONSTANT)) as [Hm|Hm]; simpl; [discriminate|].
    destruct (exponent_is_even round EPS (exponent s)); simpl.
    + destruct (decide (exponent s < 0)); [discriminate|].
      destruct (decide (exponent s = 0)); [discriminate|].
      destruct (decide (cc = CT_AFFINE)); discriminate.
    + destruct (decide (exponent s = 1)) as [Hp|Hp]; [|discriminate].
      intros ->. repeat split; [|assumption].
      by apply dec_stable.
Qed.

(** The three structural queries of [Power_Int] form a hierarchy whenever
    the argument's answers do: a polynomial node is rational, a linear node
    with a nonzero exponent is polynomial; [x^0] is linear even for a
    non-polynomial argument while not polynomial; a negative exponent is
    never polynomial. *)
Theorem structure_queries_hierarchy (n : Z) (lin poly rat : BooleanType)
  (Hpr : poly = BT_TRUE -> rat = BT_TRUE)
  (Hlp : lin = BT_TRUE -> poly = BT_TRUE) :
  (isPolynomialIn n poly = BT_TRUE -> isRationalIn rat = BT_TRUE) /\
  (n <> 0 -> isLinearIn n lin = BT_TRUE -> isPolynomialIn n poly = BT_TRUE) /\
  (poly = BT_FALSE -> isLinearIn 0 lin = BT_TRUE /\ isPolynomialIn 0 poly = BT_FALSE) /\
  (n < 0 -> isPolynomialIn n poly = BT_FALSE).
Proof.
  unfold isLinearIn, isPolynomialIn, isRationalIn. split; [|split; [|split]].
  - destruct (decide (poly = BT_TRUE /\ n >= 0)) as [[Hp _]|]; [|discriminate].
    intros _. rewrite (Hpr Hp). reflexivity.
  - intros Hn. destruct (decide (n = 0)); [contradiction|].
    destruct (decide (n = 1 /\ lin = BT_TRUE)) as [[-> Hl]|]; [|discriminate].
    intros _. rewrite (Hlp Hl).
    destruct (decide (BT_TRUE = BT_TRUE /\ 1 >= 0)) as [|[]]; [reflexivity|].
    split; [reflexivity|lia].
  - intros ->. split; [reflexivity|].
    destruct (decide (BT_FALSE = BT_TRUE /\ 0 >= 0)) as [[]|]; [discriminate|reflexivity].
  - intros Hn. destruct (decide (poly = BT_TRUE /\ n >= 0)) as [[_ ?]|]; [lia|reflexivity].
Qed.

Local Open Scope Q_scope.

(** With a rounding that is symmetric about zero (round-to-nearest is),
    [dAsin] is even and [ddAsin] is odd, bit for bit, for any [sqrt]. *)
Theorem dAsin_symmetry (round sqrt : Q -> Q)
  (round_sym : forall q, round (- q) = - round q) (x : Q) :
  AsinNumeric.dAsin round sqrt (- x) = AsinNumeric.dAsin round sqrt x /\
  AsinNumeric.ddAsin round sqrt (- x) = - AsinNumeric.ddAsin round sqrt x.
Proof.
  destruct x as [n d]. unfold AsinNumeric.dAsin, AsinNumeric.ddAsin.
  assert (Hsq : Qmult (Qopp (n # d)) (Qopp (n # d)) = Qmult (n # d) (n # d)).
  { unfold Qmult, Qopp; simpl. f_equal. lia. }
  rewrite Hsq. split; [reflexivity|].
  set (w := round (round (round (-(1 # 2) / _) / _) / _)).
  assert (H2 : Qmult (-2) (Qopp (n # d)) = Qopp (Qmult (-2) (n # d))).
  { unfold Qmult, Qopp; simpl. f_equal. lia. }
  rewrite H2, round_sym.
  destruct (round (Qmult (-2) (n # d))) as [a b]. destruct w as [c e].
  assert (H3 : Qmult (Qopp (a # b)) (c # e) = Qopp (Qmult (a # b) (c # e))).
  { unfold Qmult, Qopp; simpl. f_equal. lia. }
  rewrite H3, round_sym. reflexivity.
Qed.

(** With exact arithmetic the two helpers agree with the calculus of
    [asin]: [ddAsin(x) = x * dAsin(x)^3], i.e. [x / (1-x^2)^(3/2)] when
    [sqrt] is exact, whenever [sqrt(1-x*x)] is nonzero. *)
Theorem ddAsin_exact (sqrt : Q -> Q) (x : Q)
  (Hv : ~ sqrt (1 - x * x) == 0) :
  AsinNumeric.ddAsin id sqrt x == x * (AsinNumeric.dAsin id sqrt x) ^ 3.
Proof.
  unfold AsinNumeric.ddAsin, AsinNumeric.dAsin, id. simpl.
  field. exact Hv.
Qed.

End ClassifyMore.

Module ClassifyMoreWitnesses.
Import Classify.
Local Open Scope Q_scope.

Lemma structure_queries_hierarchy_witness :
  (BT_TRUE = BT_TRUE -> BT_TRUE = BT_TRUE) /\
  (isPolynomialIn 2 BT_TRUE = BT_TRUE -> isRationalIn BT_TRUE = BT_TRUE) /\
  (2%Z <> 0%Z -> isLinearIn 2 BT_TRUE = BT_TRUE -> isPolynomialIn 2 BT_TRUE = BT_TRUE) /\
  (BT_TRUE = BT_FALSE -> isLinearIn 0 BT_TRUE = BT_TRUE /\ isPolynomialIn 0 BT_TRUE = BT_FALSE) /\
  ((2 < 0)%Z -> isPolynomialIn 2 BT_TRUE = BT_FALSE).
Proof.
  split; [intros H; exact H|].
  exact (ClassifyMore.structure_queries_hierarchy 2 BT_TRUE BT_TRUE BT_TRUE
           (fun H => H) (fun H => H)).
Defined.

Definition qsqrt_approx (q : Q) : Q := Qmake (Z.sqrt (Qnum q)) (Pos.of_nat (Nat.sqrt (Pos.to_nat (Qden q)))).

Lemma dAsin_symmetry_witness :
  (forall q, id (- q) = - id q) /\
  AsinNumeric.dAsin id qsqrt_approx (- (1 # 2)) = AsinNumeric.dAsin id qsqrt_approx (1 # 2) /\
  AsinNumeric.ddAsin id qsqrt_approx (- (1 # 2)) = - AsinNumeric.ddAsin id qsqrt_approx (1 # 2).
Proof.
  split; [intros q; reflexivity|].
  exact (ClassifyMore.dAsin_symmetry id qsqrt_approx (fun q => eq_refl) (1 # 2)).
Defined.

Lemma ddAsin_exact_witness :
  ~ qsqrt_approx (1 - (1 # 2) * (1 # 2)) == 0 /\
  AsinNumeric.ddAsin id qsqrt_approx (1 # 2) ==
  (1 # 2) * (AsinNumeric.dAsin id qsqrt_approx (1 # 2)) ^ 3.
Proof.
  assert (H : ~ qsqrt_approx (1 - (1 # 2) * (1 # 2)) == 0) by (vm_compute; discriminate).
  split; [exact H|]. exact (ClassifyMore.ddAsin_exact qsqrt_approx (1 # 2) H).
Defined.

End ClassifyMoreWitnesses.

(** ** Return codes of the numeric sweeps of [Power_Int] *)
Module NumericCodes.
Import Numeric NumericFacts.

Section Codes.
Context {R : Type} (pow : R -> Z -> R) (Rmul Radd : R -> R -> R) (RofZ : Z -> R)
  (uninit : R) {CS X : Type}
  (child_evaluate : CS -> Z -> X -> returnValue * R * CS)
  (child_AD_forward5 : CS -> Z -> X -> X -> returnValue * R * R * CS)
  (child_AD_forward : CS -> Z -> X -> returnValue * R * CS)
  (child_AD_backward : CS -> Z -> R -> returnValue * CS)
  (child_AD_forward2 : CS -> Z -> X -> X -> returnValue * R * R * CS)
  (child_AD_backward2 : CS -> Z -> R -> R -> returnValue * CS).

(** At a slot [0 <= number < bufferSize], whatever the argument returns:
    [evaluate], both [AD_forward], [AD_forward2] and [AD_backward2] report
    [SUCCESSFUL_RETURN] (the argument's code is dropped), the second-order
    sweeps leave the buffers unchanged, and only [AD_backward] returns the
    argument's code, leaving the buffers unchanged too. *)
Theorem sweep_return_codes (s : PowerIntBuf R) cs number (x seed dseed : X)
  (bseed bseed1 bseed2 : R) :
  buf_wf R s -> 0 <= number < bufferSize R s ->
  (exists v s1 cs1,
     evaluate R pow uninit CS X child_evaluate s cs number x =
     Some (SUCCESSFUL_RETURN, v, s1, cs1)) /\
  (exists f df s1 cs1,
     AD_forward5 R pow Rmul RofZ uninit CS X child_AD_forward5 s cs number x seed =
     Some (SUCCESSFUL_RETURN, f, df, s1, cs1)) /\
  (exists df s1 cs1,
     AD_forward R pow Rmul RofZ CS X child_AD_forward s cs number seed =
     Some (SUCCESSFUL_RETURN, df, s1, cs1)) /\
  (exists df ddf cs1,
     AD_forward2 R pow Rmul Radd RofZ CS X child_AD_forward2 s cs number seed dseed =
     Some (SUCCESSFUL_RETURN, df, ddf, s, cs1)) /\
  (exists cs1,
     AD_backward2 R pow Rmul Radd RofZ CS child_AD_backward2 s cs number bseed1 bseed2 =
     Some (SUCCESSFUL_RETURN, s, cs1)) /\
  (exists a cs1,
     buf_get R (argument_result R s) number = Some a /\
     AD_backward R pow Rmul RofZ CS child_AD_backward s cs number bseed =
     Some (fst (child_AD_backward cs number
                 (Rmul (Rmul (RofZ (exponent R s)) (pow a (int_wrap (exponent R s - 1)))) bseed)),
           s, cs1)).
Proof.
  intros (H0 & Ha & Hd) Hn.
  assert (G : grow R uninit s number = s).
  { unfold grow. destruct (number >=? bufferSize R s) eqn:E; [|done].
    apply Z.geb_le in E. lia. }
  destruct (buf_get_in_Some (argument_result R s) number) as [a Ea]; [lia|].
  destruct (buf_get_in_Some (dargument_result R s) number) as [d Ed]; [lia|].
  split; [|split; [|split; [|split; [|split]]]].
  - unfold evaluate. rewrite G.
    destruct (child_evaluate cs number x) as [[rc0 v] cs1].
    rewrite buf_set_in by lia. simpl. rewrite buf_get_set_eq by lia.
    do 3 eexists. reflexivity.
  - unfold AD_forward5. rewrite G.
    destruct (child_AD_forward5 cs number x seed) as [[[rc0 v] dv] cs1].
    rewrite (buf_set_in (argument_result R s)) by lia. simpl.
    rewrite (buf_set_in (dargument_result R s)) by lia. simpl.
    rewrite !buf_get_set_eq by lia. simpl.
    do 4 eexists. reflexivity.
  - unfold AD_forward.
    destruct (child_AD_forward cs number seed) as [[rc0 dv] cs1].
    rewrite (buf_set_in (dargument_result R s)) by lia. simpl.
    rewrite Ea. simpl. rewrite buf_get_set_eq by lia.
    do 3 eexists. reflexivity.
  - unfold AD_forward2.
    destruct (child_AD_forward2 cs number seed dseed) as [[[rc0 d2] dd2] cs1].
    rewrite Ea, Ed. simpl. do 3 eexists. reflexivity.
  - unfold AD_backward2. rewrite Ea. simpl. rewrite Ed. simpl.
    match goal with
    | |- context [child_AD_backward2 ?c ?n ?u ?w] => destruct (child_AD_backward2 c n u w)
    end.
    eexists. reflexivity.
  - exists a. unfold AD_backward. rewrite Ea. simpl.
    match goal with
    | |- context [child_AD_backward ?c ?n ?u] => destruct (child_AD_backward c n u) as [rc1 cs1]
    end.
    exists cs1. split; reflexivity.
Qed.

End Codes.

End NumericCodes.

Module NumericCodesWitnesses.
Import Numeric QInstance.

Lemma sweep_return_codes_witness :
  buf_wf Q node3 /\ 0 <= 0 < bufferSize Q node3 /\
  (exists v s1 cs1,
     evaluate Q Qpower 0%Q unit (Z -> Q) var0_evaluate node3 tt 0 x2 =
     Some (SUCCESSFUL_RETURN, v, s1, cs1)) /\
  (exists f df s1 cs1,
     AD_forward5 Q Qpower Qmult inject_Z 0%Q unit (Z -> Q) var0_AD_forward5 node3 tt 0 x2 x2 =
     Some (SUCCESSFUL_RETURN, f, df, s1, cs1)) /\
  (exists df s1 cs1,
     AD_forward Q Qpower Qmult inject_Z unit (Z -> Q) var0_AD_forward node3 tt 0 x2 =
     Some (SUCCESSFUL_RETURN, df, s1, cs1)) /\
  (exists df ddf cs1,
     AD_forward2 Q Qpower Qmult Qplus inject_Z unit (Z -> Q) var0_AD_forward2 node3 tt 0 x2 x2 =
     Some (SUCCESSFUL_RETURN, df, ddf, node3, cs1)) /\
  (exists cs1,
     AD_backward2 Q Qpower Qmult Qplus inject_Z unit var0_AD_backward2 node3 tt 0 1%Q 0%Q =
     Some (SUCCESSFUL_RETURN, node3, cs1)) /\
  (exists a cs1,
     buf_get Q (argument_result Q node3) 0 = Some a /\
     AD_backward Q Qpower Qmult inject_Z unit var0_AD_backward node3 tt 0 1%Q =
     Some (fst (var0_AD_backward tt 0
                 (Qmult (Qmult (inject_Z (exponent Q node3))
                               (Qpower a (int_wrap (exponent Q node3 - 1)))) 1%Q)),
           node3, cs1)).
Proof.
  assert (W : buf_wf Q node3) by (unfold buf_wf; simpl; lia).
  assert (B : 0 <= 0 < bufferSize Q node3) by (simpl; lia).
  split; [exact W|]. split; [exact B|].
  exact (NumericCodes.sweep_return_codes Qpower Qmult Qplus inject_Z 0%Q
           var0_evaluate var0_AD_forward5 var0_AD_forward var0_AD_backward
           var0_AD_forward2 var0_AD_backward2 node3 tt 0 x2 x2 x2 1%Q 1%Q 0%Q W B).
Defined.

End NumericCodesWitnesses.
